(** * A shallow embedding of the CSP solver of Oving4/Assignment4.py

    The solver is the Python class [CSP]: a constraint graph (variables,
    domain templates, directed constraints), the AC-3 propagation
    ([inference], [revise]) and the backtracking search ([backtrack],
    [backtracking_search]).

    The code is written against mutable Python objects, so the embedding
    keeps the objects that the code shares and mutates:

    - the domain lists live in a heap of list objects; a dictionary maps a
      variable name to a reference into that heap (or, after
      [tmp[var] = val], to the bare value itself);
    - a dictionary is an insertion-ordered association list, as in Python 3;
    - [self.constraints[i][j]] is either a list of value pairs or the
      one-shot iterator that [filter] returns in Python 3;
    - every method is a computation in a state-and-exception monad over the
      [CSP] object and the heap; an uncaught Python exception is a [Raise]. *)

From Stdlib Require Import String Ascii List ZArith Lia Bool Arith.
From stdpp Require Import base list strings relations.
Import ListNotations.

(** ** Python values, objects and exceptions *)

(** The immutable values a domain holds. Both builders of the repository
    use strings (colour names, digit characters). *)
Inductive value : Type :=
  | VStr (s : string)
  | VInt (z : Z).

Definition value_eqb (a b : value) : bool :=
  match a, b with
  | VStr s, VStr t => String.eqb s t
  | VInt x, VInt y => Z.eqb x y
  | _, _ => false
  end.

Definition pair_eqb (p q : value * value) : bool :=
  value_eqb (fst p) (fst q) && value_eqb (snd p) (snd q).

(** What a dictionary of domains maps a name to: a reference to a list
    object, or an immediate value. *)
Inductive obj : Type :=
  | ORef (l : nat)
  | OVal (v : value).

Inductive exn : Type :=
  | KeyError
  | AttributeError
  | TypeError
  | ValueError
  | RecursionError.

Inductive outcome (A : Type) : Type :=
  | Ok (a : A)
  | Raise (e : exn).
Arguments Ok {A} a.
Arguments Raise {A} e.

(** ** Dictionaries: insertion-ordered association lists *)

Abbreviation dict V := (list (string * V)).

Section Dict.
Context {V : Type}.

Fixpoint dict_get (d : dict V) (k : string) : option V :=
  match d with
  | [] => None
  | (k', v) :: d' => if String.eqb k k' then Some v else dict_get d' k
  end.

(** [d[k] = v]: an existing key keeps its position, a new key goes last. *)
Fixpoint dict_set (d : dict V) (k : string) (v : V) : dict V :=
  match d with
  | [] => [(k, v)]
  | (k', v') :: d' =>
      if String.eqb k k' then (k, v) :: d' else (k', v') :: dict_set d' k v
  end.

Definition dict_keys (d : dict V) : list string := map fst d.

Definition dict_mem (d : dict V) (k : string) : bool :=
  match dict_get d k with Some _ => true | None => false end.
End Dict.

(** ** The constraint graph *)

(** [self.constraints[i][j]]: a materialised list, or the lazy iterator
    left by [filter] / [itertools.product], given by the items it still
    has to yield. *)
Inductive pairs : Type :=
  | PList (l : list (value * value))
  | PIter (l : list (value * value)).

Definition pairs_items (p : pairs) : list (value * value) :=
  match p with PList l => l | PIter l => l end.

Record CSP : Type := mkCSP {
  variables : list string;
  domains : dict obj;
  constraints : dict (dict pairs);
  backtracks : nat;
  failed : nat
}.

(** [CSP()] *)
Definition CSP_init : CSP :=
  {| variables := []; domains := []; constraints := [];
     backtracks := 0; failed := 0 |}.

(** The heap of list objects, addressed by position; a new list is
    allocated at the end. *)
Abbreviation heap := (list (list value)).

Record world : Type := mkWorld {
  self : CSP;
  store : heap
}.

Definition world_init : world := {| self := CSP_init; store := [] |}.

(** ** The monad of methods *)

Definition M (A : Type) : Type := world -> outcome A * world.

Definition ret {A} (a : A) : M A := fun w => (Ok a, w).
Definition raise {A} (e : exn) : M A := fun w => (Raise e, w).
Definition bind {A B} (m : M A) (k : A -> M B) : M B :=
  fun w => match m w with
           | (Ok a, w') => k a w'
           | (Raise e, w') => (Raise e, w')
           end.

Notation "'let*' x ':=' m 'in' k" := (bind m (fun x => k))
  (at level 10, x name, m at level 100, k at level 200).
Notation "'exec' m 'in' k" := (bind m (fun _ => k))
  (at level 10, m at level 100, k at level 200).

Definition get_self : M CSP := fun w => (Ok (self w), w).
Definition put_self (c : CSP) : M unit :=
  fun w => (Ok tt, {| self := c; store := store w |}).
Definition get_store : M heap := fun w => (Ok (store w), w).
Definition put_store (h : heap) : M unit :=
  fun w => (Ok tt, {| self := self w; store := h |}).

(** [d[k]] for reading: a missing key raises [KeyError]. *)
Definition subscript {V} (d : dict V) (k : string) : M V :=
  match dict_get d k with
  | Some v => ret v
  | None => raise KeyError
  end.

Definition lift {A} (r : outcome A) : M A :=
  match r with Ok a => ret a | Raise e => raise e end.

(** ** Sequences: lists and strings *)

(** A list object is read through the heap. Every reference the program
    creates is allocated, so the default is never taken by it. *)
Definition cell (h : heap) (l : nat) : list value := default [] (h !! l).

(** Iterating a string yields its one-character strings. *)
Definition chars (s : string) : list value :=
  map (fun c => VStr (String c EmptyString)) (list_ascii_of_string s).

(** The items an object yields when iterated now; an [int] is not
    iterable. *)
Definition contents (h : heap) (o : obj) : outcome (list value) :=
  match o with
  | ORef l => Ok (cell h l)
  | OVal (VStr s) => Ok (chars s)
  | OVal (VInt _) => Raise TypeError
  end.

(** [len(o)] *)
Definition py_len (o : obj) : M nat :=
  let* h := get_store in
  let* items := lift (contents h o) in
  ret (length items).

(** One step of [for x in o]: the iterator holds an index and reads the
    object as it is now; [None] is the end of the loop. *)
Definition iter_next (o : obj) (k : nat) : M (option value) :=
  let* h := get_store in
  let* items := lift (contents h o) in
  ret (items !! k).

(** [t in s] for strings: [t] occurs in [s] as a substring. *)
Fixpoint substring_of (t s : string) : bool :=
  String.prefix t s ||
  match s with
  | EmptyString => false
  | String _ s' => substring_of t s'
  end.

(** [x in o] *)
Definition py_contains (x : value) (o : obj) : M bool :=
  match o with
  | ORef l => let* h := get_store in ret (existsb (value_eqb x) (cell h l))
  | OVal (VStr s) =>
      match x with
      | VStr t => ret (substring_of t s)
      | VInt _ => raise TypeError
      end
  | OVal (VInt _) => raise TypeError
  end.

(** [list.remove]: drops the first item equal to [x]. *)
Fixpoint remove_first (x : value) (l : list value) : list value :=
  match l with
  | [] => []
  | y :: l' => if value_eqb y x then l' else y :: remove_first x l'
  end.

(** [o.remove(x)]: only a list has the method; a list without [x]
    raises [ValueError]. *)
Definition py_remove (o : obj) (x : value) : M unit :=
  match o with
  | ORef l =>
      let* h := get_store in
      if existsb (value_eqb x) (cell h l)
      then put_store (<[l := remove_first x (cell h l)]> h)
      else raise ValueError
  | OVal _ => raise AttributeError
  end.

(** A new list object. *)
Definition alloc (items : list value) : M nat :=
  let* h := get_store in
  exec put_store (h ++ [items]) in
  ret (length h).

(** A loop whose body only has effects. *)
Fixpoint for_each {A} (l : list A) (body : A -> M unit) : M unit :=
  match l with
  | [] => ret tt
  | x :: l' => exec body x in for_each l' body
  end.

(** ** Building the graph *)

Definition set_constraints (c : CSP) (cs : dict (dict pairs)) : CSP :=
  {| variables := variables c; domains := domains c; constraints := cs;
     backtracks := backtracks c; failed := failed c |}.

(** [add_variable]: the name is appended to [self.variables], the domain
    is copied into a new list, and the constraints of the name start
    empty. *)
Definition add_variable (name : string) (domain : list value) : M unit :=
  let* l := alloc domain in
  let* c := get_self in
  put_self {| variables := variables c ++ [name];
              domains := dict_set (domains c) name (ORef l);
              constraints := dict_set (constraints c) name [];
              backtracks := backtracks c; failed := failed c |}.

(** [itertools.product(a, b)] *)
Definition get_all_possible_pairs {A B} (a : list A) (b : list B)
  : list (A * B) := list_prod a b.

(** [[(i, j) for i in self.constraints for j in self.constraints[i]]] *)
Definition arcs_of (cs : dict (dict pairs)) : list (string * string) :=
  flat_map (fun e => map (fun j => (fst e, j)) (dict_keys (snd e))) cs.

Definition get_all_arcs : M (list (string * string)) :=
  let* c := get_self in
  ret (arcs_of (constraints c)).

Definition get_all_neighboring_arcs (var : string)
  : M (list (string * string)) :=
  let* c := get_self in
  let* inner := subscript (constraints c) var in
  ret (map (fun i => (i, var)) (dict_keys inner)).

(** [add_constraint_one_way]: a first constraint on (i, j) starts from
    the product of the two domain templates; the entry is then replaced
    by a [filter] object over what was there. *)
Definition add_constraint_one_way (i j : string)
    (filter_function : value -> value -> bool) : M unit :=
  let* c := get_self in
  let* ci := subscript (constraints c) i in
  let* ci1 :=
    (if dict_mem ci j then ret ci
     else
       let* di := subscript (domains c) i in
       let* dj := subscript (domains c) j in
       let* h := get_store in
       let* a := lift (contents h di) in
       let* b := lift (contents h dj) in
       ret (dict_set ci j (PIter (get_all_possible_pairs a b)))) in
  let* old := subscript ci1 j in
  let kept := List.filter (fun vp => filter_function (fst vp) (snd vp))
                     (pairs_items old) in
  put_self (set_constraints c
              (dict_set (constraints c) i (dict_set ci1 j (PIter kept)))).

Definition not_equal (x y : value) : bool := negb (value_eqb x y).

Definition add_all_different_constraint (vars : list string) : M unit :=
  for_each (get_all_possible_pairs vars vars)
    (fun ij => if String.eqb (fst ij) (snd ij) then ret tt
               else add_constraint_one_way (fst ij) (snd ij) not_equal).

(** The loop that ends both builders:
    [csp.constraints[c][e] = list(csp.constraints[c][e])] for every entry. *)
Definition listify_constraints : M unit :=
  let* c := get_self in
  put_self (set_constraints c
    (map (fun e => (fst e,
            map (fun f => (fst f, PList (pairs_items (snd f)))) (snd e)))
         (constraints c))).

Definition states : list string :=
  ["WA"; "NT"; "Q"; "NSW"; "V"; "SA"; "T"]%string.

Definition edges : dict (list string) :=
  [("SA", ["WA"; "NT"; "Q"; "NSW"; "V"]);
   ("NT", ["WA"; "Q"]);
   ("NSW", ["Q"; "V"])]%string.

Definition colors : list value :=
  [VStr "red"; VStr "green"; VStr "blue"].

Definition create_map_coloring_csp : M unit :=
  exec for_each states (fun state => add_variable state colors) in
  exec for_each edges (fun e =>
         for_each (snd e) (fun other_state =>
           exec add_constraint_one_way (fst e) other_state not_equal in
           add_constraint_one_way other_state (fst e) not_equal)) in
  listify_constraints.

(** ** AC-3: [revise] and [inference] *)

(** Reading [self.constraints[i][j]] to its end, as
    [list(filter(..., self.constraints[i][j]))] does: a list is left as
    it is, an iterator is left exhausted. *)
Definition read_constraint (i j : string) : M (list (value * value)) :=
  let* c := get_self in
  let* ci := subscript (constraints c) i in
  let* p := subscript ci j in
  match p with
  | PList l => ret l
  | PIter l =>
      exec put_self (set_constraints c
             (dict_set (constraints c) i (dict_set ci j (PIter [])))) in
      ret l
  end.

(** The body of [for x in assignment[i]], from position [k] of the
    iterator [it]; [n] bounds the positions left, as no list grows. *)
Fixpoint revise_loop (n : nat) (assignment : dict obj) (i j : string)
    (it : obj) (k : nat) (revised : bool) : M bool :=
  match n with
  | 0 => ret revised
  | S n' =>
      let* nx := iter_next it k in
      match nx with
      | None => ret revised
      | Some x =>
          let* oj := subscript assignment j in
          let* h := get_store in
          let* ys := lift (contents h oj) in
          let arcs := get_all_possible_pairs [x] ys in
          let* cij := read_constraint i j in
          if length (List.filter (fun arc => existsb (pair_eqb arc) arcs)
                                 cij) <? 1
          then
            let* oi := subscript assignment i in
            let* present := py_contains x oi in
            exec (if present then py_remove oi x else ret tt) in
            revise_loop n' assignment i j it (S k) true
          else revise_loop n' assignment i j it (S k) revised
      end
  end.

Definition revise (assignment : dict obj) (i j : string) : M bool :=
  let* it := subscript assignment i in
  let* n := py_len it in
  revise_loop (S n) assignment i j it 0 false.

(** The arcs [inference] appends after a revision of (x_i, x_j). *)
Definition requeued (x_i x_j : string) (arcs : list (string * string))
  : list (string * string) :=
  map (fun a => (fst a, x_i))
      (List.filter (fun a => negb (String.eqb (fst a) x_j)) arcs).

(** One iteration of the [while] loop of [inference], on the arc it has
    popped: [None] when the iteration returns [False], otherwise the arcs
    it appends to the queue. *)
Definition inference_body (assignment : dict obj) (x_i x_j : string)
  : M (option (list (string * string))) :=
  let* revised := revise assignment x_i x_j in
  if revised then
    let* oi := subscript assignment x_i in
    let* len := py_len oi in
    if len =? 0 then ret None
    else
      let* arcs := get_all_neighboring_arcs x_i in
      ret (Some (requeued x_i x_j arcs))
  else ret (Some []).

(** The [while] loop of [inference]. [queue] is the list of the caller:
    the loop pops from it and appends to it in place, so its items are
    passed along the loop and handed back with the outcome, as they are
    when the call returns or raises. [fuel] bounds the iterations. *)
Fixpoint inference_loop (fuel : nat) (assignment : dict obj)
    (queue : list (string * string)) (w : world)
  : outcome bool * world * list (string * string) :=
  match queue with
  | [] => (Ok true, w, [])
  | (x_i, x_j) :: queue' =>
      match fuel with
      | 0 => (Ok true, w, queue)
      | S fuel' =>
          match inference_body assignment x_i x_j w with
          | (Ok (Some added), w') =>
              inference_loop fuel' assignment (queue' ++ added) w'
          | (Ok None, w') => (Ok false, w', queue')
          | (Raise e, w') => (Raise e, w', queue')
          end
      end
  end.

(** Every revision that re-enqueues arcs has removed a value from a list
    of the heap, and re-enqueues at most as many arcs as the graph has:
    this bounds the iterations of the loop. *)
Fixpoint store_size (h : heap) : nat :=
  match h with
  | [] => 0
  | items :: h' => length items + store_size h'
  end.

Definition arc_count (c : CSP) : nat := length (arcs_of (constraints c)).

Definition potential (w : world) (queue : list (string * string)) : nat :=
  store_size (store w) * S (arc_count (self w)) + length queue.

(** [inference]: the outcome, the world, and what the call leaves in the
    list [queue]. *)
Definition inference (assignment : dict obj)
    (queue : list (string * string)) (w : world)
  : outcome bool * world * list (string * string) :=
  inference_loop (potential w queue) assignment queue w.

(** [self.inference(assignment, self.get_all_arcs())]: the queue is a new
    list that only the call holds, and what is left in it goes with it. *)
Definition inference_fresh (assignment : dict obj)
    (arcs : list (string * string)) : M bool :=
  fun w => fst (inference assignment arcs w).

(** ** Backtracking search *)

(** [copy.deepcopy] of a dictionary of domains: every list is copied into
    a new list; a list reached twice is copied once ([memo]). *)
Fixpoint memo_get (memo : list (nat * nat)) (l : nat) : option nat :=
  match memo with
  | [] => None
  | (a, b) :: memo' => if a =? l then Some b else memo_get memo' l
  end.

Fixpoint deepcopy_items (d : dict obj) (memo : list (nat * nat))
  : M (dict obj) :=
  match d with
  | [] => ret []
  | (k, OVal v) :: d' =>
      let* r := deepcopy_items d' memo in ret ((k, OVal v) :: r)
  | (k, ORef l) :: d' =>
      match memo_get memo l with
      | Some l' =>
          let* r := deepcopy_items d' memo in ret ((k, ORef l') :: r)
      | None =>
          let* h := get_store in
          let* l' := alloc (cell h l) in
          let* r := deepcopy_items d' ((l, l') :: memo) in
          ret ((k, ORef l') :: r)
      end
  end.

Definition deepcopy (d : dict obj) : M (dict obj) := deepcopy_items d [].

(** The sort key of [select_unassigned_variable]; [None] is
    [float("inf")]. *)
Definition remaining_key (assignment : dict obj) (var : string)
  : M (option nat) :=
  let* o := subscript assignment var in
  let* n := py_len o in
  ret (if n <? 2 then None else Some n).

Definition key_lt (a b : option nat) : bool :=
  match a, b with
  | Some x, Some y => x <? y
  | Some _, None => true
  | None, _ => false
  end.

(** [min(..., key=...)]: the first name with the least key. *)
Fixpoint min_loop (assignment : dict obj) (rest : list string)
    (best : string) (best_key : option nat) : M string :=
  match rest with
  | [] => ret best
  | v :: rest' =>
      let* k := remaining_key assignment v in
      if key_lt k best_key then min_loop assignment rest' v k
      else min_loop assignment rest' best best_key
  end.

Definition select_unassigned_variable (assignment : dict obj) : M string :=
  match dict_keys assignment with
  | [] => raise ValueError
  | v :: rest =>
      let* k := remaining_key assignment v in
      min_loop assignment rest v k
  end.

(** The loop that computes [done] in [backtrack]; it visits every item. *)
Fixpoint all_decided (items : dict obj) (done : bool) : M bool :=
  match items with
  | [] => ret done
  | (_, o) :: rest =>
      let* n := py_len o in
      all_decided rest (if n =? 1 then done else false)
  end.

(** [if result:] on what [backtrack] returns: [None] and the empty
    dictionary are false. *)
Definition truthy (result : option (dict obj)) : bool :=
  match result with
  | Some (_ :: _) => true
  | _ => false
  end.

Definition count_backtrack : M unit :=
  let* c := get_self in
  put_self {| variables := variables c; domains := domains c;
              constraints := constraints c;
              backtracks := S (backtracks c); failed := failed c |}.

Definition count_failed : M unit :=
  let* c := get_self in
  put_self {| variables := variables c; domains := domains c;
              constraints := constraints c;
              backtracks := backtracks c; failed := S (failed c) |}.

(** [tmp = copy.deepcopy(assignment); tmp[var] = val]: the value itself is
    stored under [var], not a list that holds it. *)
Definition assign_copy (assignment : dict obj) (var : string) (val : value)
  : M (dict obj) :=
  let* tmp := deepcopy assignment in
  ret (dict_set tmp var (OVal val)).

(** One candidate value of the selected variable: the copy with the value
    assigned, and AC-3 over all arcs on the copy. *)
Definition try_value (assignment : dict obj) (var : string) (val : value)
  : M (bool * dict obj) :=
  let* tmp := assign_copy assignment var val in
  let* arcs := get_all_arcs in
  let* inferences := inference_fresh tmp arcs in
  ret (inferences, tmp).

(** [for val in assignment[var]] of [backtrack], from position [k];
    [rec] is the recursive call. *)
Fixpoint branch_loop (rec : dict obj -> M (option (dict obj))) (n : nat)
    (assignment : dict obj) (var : string) (it : obj) (k : nat)
  : M (option (dict obj)) :=
  match n with
  | 0 => ret None
  | S n' =>
      let* nx := iter_next it k in
      match nx with
      | None => ret None
      | Some val =>
          let* t := try_value assignment var val in
          if fst t then
            let* result := rec (snd t) in
            if truthy result then ret result
            else branch_loop rec n' assignment var it (S k)
          else branch_loop rec n' assignment var it (S k)
      end
  end.

(** [backtrack]; [depth] is the number of nested calls the interpreter
    still allows before it raises [RecursionError]. *)
Fixpoint backtrack (depth : nat) (assignment : dict obj)
  : M (option (dict obj)) :=
  match depth with
  | 0 => raise RecursionError
  | S depth' =>
      let* done := all_decided assignment true in
      if done then ret (Some assignment)
      else
        exec count_backtrack in
        let* var := select_unassigned_variable assignment in
        let* it := subscript assignment var in
        let* n := py_len it in
        let* result := branch_loop (backtrack depth') (S n)
                                   assignment var it 0 in
        match result with
        | Some r => ret (Some r)
        | None => exec count_failed in ret None
        end
  end.

Definition backtracking_search (depth : nat) : M (option (dict obj)) :=
  let* c := get_self in
  let* assignment := deepcopy (domains c) in
  let* arcs := get_all_arcs in
  let* _ := inference_fresh assignment arcs in
  backtrack depth assignment.

(** What a dictionary of domains shows when printed: the items of every
    list, read from the heap. *)
Inductive shown : Type :=
  | SList (items : list value)
  | SVal (v : value).

Definition show (h : heap) (d : dict obj) : dict shown :=
  map (fun e => (fst e, match snd e with
                        | ORef l => SList (cell h l)
                        | OVal v => SVal v
                        end)) d.


(** ** Stepping through a method *)

(** [wp m w Q]: running [m] from [w] ends in an outcome and a world that
    satisfy [Q]. *)
Definition wp {A} (m : M A) (w : world) (Q : outcome A -> world -> Prop)
  : Prop := Q (fst (m w)) (snd (m w)).

(** Methods that only read. *)
Definition reads {A} (m : M A) : Prop := forall w, snd (m w) = w.

(** ** What the solver may change *)

(** Every stored constraint is a list, as both builders leave them. *)
Definition is_list (p : pairs) : bool :=
  match p with PList _ => true | PIter _ => false end.

Definition listified (c : CSP) : bool :=
  forallb (fun e : string * dict pairs =>
             forallb (fun f : string * pairs => is_list (snd f)) (snd e))
          (constraints c).

(** The registered arcs, by source variable. *)
Definition shape (cs : dict (dict pairs)) : list (string * list string) :=
  map (fun e => (fst e, dict_keys (snd e))) cs.

(** The graph after a call, against the graph before it: variables and
    domain templates are the same, no constraint is added or deleted, and
    the constraints of a graph that stores them as lists are left as they
    were. The two counters are apart. *)
Record graph_kept (c c' : CSP) : Prop := {
  kept_variables : variables c' = variables c;
  kept_domains : domains c' = domains c;
  kept_shape : shape (constraints c') = shape (constraints c);
  kept_lists : listified c = true -> constraints c' = constraints c
}.

Definition counters_kept (c c' : CSP) : Prop :=
  backtracks c' = backtracks c /\ failed c' = failed c.

(** The heap after a call on the list [it], against the heap before it:
    no list is allocated, no list grows, and only [it] may have changed. *)
Record store_kept (it : obj) (h h' : heap) : Prop := {
  kept_length : length h' = length h;
  kept_size : store_size h' <= store_size h;
  kept_sublist : forall l, sublist (cell h' l) (cell h l);
  kept_others : forall l, it <> ORef l -> h' !! l = h !! l
}.

(** A call on the list [it] has removed an item from it. *)
Definition shrunk (it : obj) (w w' : world) : Prop :=
  store_size (store w') < store_size (store w) /\
  exists l, it = ORef l /\
            length (cell (store w') l) < length (cell (store w) l).

Record ac3_kept (it : obj) (w w' : world) : Prop := {
  kept_graph : graph_kept (self w) (self w');
  kept_counters : counters_kept (self w) (self w');
  kept_store : store_kept it (store w) (store w')
}.

(** The list [l] is one of the domains of the assignment [a]. *)
Definition held (a : dict obj) (l : nat) : Prop :=
  exists k, In (k, ORef l) a.

(** The world after AC-3 on the assignment [a], against the world before:
    the graph is kept, and the heap changes only in the lists that [a]
    holds, which can only lose items. *)
Record run_kept (a : dict obj) (w w' : world) : Prop := {
  run_graph : graph_kept (self w) (self w');
  run_counters : counters_kept (self w) (self w');
  run_length : length (store w') = length (store w);
  run_size : store_size (store w') <= store_size (store w);
  run_sublist : forall l, sublist (cell (store w') l) (cell (store w) l);
  run_others : forall l, ~ held a l -> store w' !! l = store w !! l
}.

(** ** The graph and its construction *)

(** The constraint (i, j) has been registered. *)
Definition registered (c : CSP) (i j : string) : Prop :=
  exists ci p, dict_get (constraints c) i = Some ci /\ dict_get ci j = Some p.

(** Every constraint is registered in both directions. *)
Definition two_way (c : CSP) : Prop :=
  forall i j, registered c i j -> registered c j i.

(** The variable has been declared through [add_variable]. *)
Definition declared (c : CSP) (name : string) : Prop :=
  In name (variables c).

(** The worlds that graph construction reaches from [CSP()]; a call that
    raises leaves the world as it was. *)
Inductive built : world -> Prop :=
  | built_init : built world_init
  | built_add_variable w name domain :
      built w -> built (snd (add_variable name domain w))
  | built_add_constraint w i j f :
      built w -> built (snd (add_constraint_one_way i j f w))
  | built_all_different w vars :
      built w -> built (snd (add_all_different_constraint vars w))
  | built_listify w :
      built w -> built (snd (listify_constraints w)).

(** What construction maintains: the three fields agree on the declared
    names, and a constraint only points to a declared name. *)
Record graph_ok (c : CSP) : Prop := {
  ok_domains : forall i, In i (variables c) <-> dict_mem (domains c) i = true;
  ok_constraints :
    forall i, dict_mem (constraints c) i = dict_mem (domains c) i;
  ok_targets :
    forall i ci j, dict_get (constraints c) i = Some ci ->
                   dict_mem ci j = true -> dict_mem (domains c) j = true
}.

(** ** The run of [inference] *)

(** One iteration of the [while] loop of [inference] on the assignment
    [a]: from a queue and a world to the next queue and world. An
    iteration that returns or raises has no successor. *)
Inductive ac3_step (a : dict obj)
  : list (string * string) * world -> list (string * string) * world -> Prop :=
  | step_unrevised i j q w w' :
      revise a i j w = (Ok false, w') ->
      ac3_step a ((i, j) :: q, w) (q, w')
  | step_revised i j q w w' oi n arcs :
      revise a i j w = (Ok true, w') ->
      dict_get a i = Some oi ->
      py_len oi w' = (Ok (S n), w') ->
      get_all_neighboring_arcs i w' = (Ok arcs, w') ->
      ac3_step a ((i, j) :: q, w) (q ++ requeued i j arcs, w').

(** The iteration on the arc (i, j) from [w1] is the one that ends the run
    in [w']: its revision removed an item of the list of [i] and left that
    list empty. *)
Definition emptying_revision (a : dict obj) (i j : string) (w1 w' : world)
  : Prop :=
  revise a i j w1 = (Ok true, w') /\
  exists l, dict_get a i = Some (ORef l) /\
            cell (store w') l = [] /\ cell (store w1) l <> [].

(** ** What the search may change *)

(** Every list of the assignment [a] was allocated at position [n] or
    later. *)
Definition fresh (a : dict obj) (n : nat) : Prop :=
  forall k l, In (k, ORef l) a -> n <= l.

(** The world after a search step, against the world before: the graph is
    kept up to its two counters, lists are only added to the heap, and the
    lists below position [n] are as they were. *)
Record search_kept (n : nat) (w w' : world) : Prop := {
  search_graph : graph_kept (self w) (self w');
  search_length : length (store w) <= length (store w');
  search_old : forall l, l < n -> store w' !! l = store w !! l
}.

(** ** Solutions, and the graphs of the examples *)

(** [s] is a valid solution of the graph: it gives every declared variable
    a value of its domain template, and every registered constraint (i, j)
    lists the pair of the values of [i] and [j]. *)
Definition solutionb (w : world) (s : dict value) : bool :=
  forallb (fun v =>
    match dict_get s v, dict_get (domains (self w)) v with
    | Some x, Some o =>
        match contents (store w) o with
        | Ok items => existsb (value_eqb x) items
        | Raise _ => false
        end
    | _, _ => false
    end) (variables (self w))
  &&
  forallb (fun e : string * dict pairs =>
    forallb (fun f : string * pairs =>
      match dict_get s (fst e), dict_get s (fst f) with
      | Some x, Some y => existsb (pair_eqb (x, y)) (pairs_items (snd f))
      | _, _ => false
      end) (snd e)) (constraints (self w)).

(** The world a builder leaves, from [CSP()]. *)
Definition build (builder : M unit) : world := snd (builder world_init).

Definition red : value := VStr "red".
Definition green : value := VStr "green".
Definition blue : value := VStr "blue".

(** The map of Australia, as [create_map_coloring_csp] builds it. *)
Definition map_coloring : world := build create_map_coloring_csp.

(** Two neighbouring regions and two colours. *)
Definition two_regions : world :=
  build (exec add_variable "X" [red; green] in
         exec add_variable "Y" [red; green] in
         exec add_constraint_one_way "X" "Y" not_equal in
         exec add_constraint_one_way "Y" "X" not_equal in
         listify_constraints).

(** Three regions, each next to the other two, and two colours. *)
Definition triangle : world :=
  build (exec add_variable "X" [red; green] in
         exec add_variable "Y" [red; green] in
         exec add_variable "Z" [red; green] in
         exec add_all_different_constraint ["X"; "Y"; "Z"]%string in
         listify_constraints).

(** Two cells of a Sudoku row, with the digits 1 and 2. *)
Definition two_cells : world :=
  build (exec add_variable "0-0" [VStr "1"; VStr "2"] in
         exec add_variable "0-1" [VStr "1"; VStr "2"] in
         exec add_all_different_constraint ["0-0"; "0-1"]%string in
         listify_constraints).

(** Two variables that must be equal; only "c" is common to the domains. *)
Definition equal_pair : world :=
  build (exec add_variable "i" [VStr "a"; VStr "b"; VStr "c"] in
         exec add_variable "j" [VStr "c"] in
         exec add_constraint_one_way "i" "j" value_eqb in
         exec add_constraint_one_way "j" "i" value_eqb in
         listify_constraints).

(** The same graph before the builder's last loop: the constraints are
    still [filter] objects. *)
Definition equal_pair_lazy : world :=
  build (exec add_variable "i" [VStr "a"; VStr "b"; VStr "c"] in
         exec add_variable "j" [VStr "c"] in
         exec add_constraint_one_way "i" "j" value_eqb in
         add_constraint_one_way "j" "i" value_eqb).

(** A constraint registered in one direction only. *)
Definition one_way : world :=
  build (exec add_variable "A" [VStr "1"; VStr "2"] in
         exec add_variable "B" [VStr "1"; VStr "2"] in
         exec add_constraint_one_way "A" "B" not_equal in
         listify_constraints).

(** A variable without values next to two constrained variables. *)
Definition with_empty : world :=
  build (exec add_variable "E" [] in
         exec add_variable "B" [VStr "1"; VStr "2"] in
         exec add_variable "C" [VStr "1"; VStr "2"] in
         exec add_all_different_constraint ["B"; "C"]%string in
         listify_constraints).

(** [assignment = copy.deepcopy(self.domains)], and the world with the
    copy in it. *)
Definition copied (w : world) : dict obj * world :=
  match deepcopy (domains (self w)) w with
  | (Ok a, w') => (a, w')
  | (Raise _, w') => ([], w')
  end.

(** ** The bounds of the two [for] loops *)

(** The bound [n] is enough for a loop at position [k] of the iterator
    [it]: the sequence has fewer than [k + n] items left to visit. *)
Definition enough (it : obj) (k n : nat) (w : world) : Prop :=
  match contents (store w) it with
  | Ok items => length items < k + n
  | Raise _ => 0 < n
  end.

(** A reference points into the heap. *)
Definition allocated (it : obj) (w : world) : Prop :=
  match it with
  | ORef l => l < length (store w)
  | OVal _ => True
  end.

(** * The Sudoku builder *)

From Stdlib Require DecimalString.

(** ['%d' % n] *)
Definition decimal (n : nat) : string :=
  DecimalString.NilZero.string_of_uint (Nat.to_uint n).

(** ['%d-%d' % (row, col)] *)
Definition cell_name (row col : nat) : string :=
  (decimal row ++ "-" ++ decimal col)%string.

(** [range(a, b)] *)
Definition range (a b : nat) : list nat := seq a (b - a).

(** [list(map(str, range(1, 10)))] *)
Definition digits : list value := map (fun n => VStr (decimal n)) (range 1 10).

(** [board[row][col]], where [board] is the list of the stripped lines of
    the file; [None] stands for the [IndexError] of a missing line or a
    short line. *)
Definition board_cell (board : list string) (row col : nat) : option string :=
  match nth_error board row with
  | None => None
  | Some line =>
      match String.get col line with
      | Some ch => Some (String ch EmptyString)
      | None => None
      end
  end.

(** How [create_sudoku_csp] ends when no method of the graph raises:
    with the graph built, or with the [IndexError] of a board access. *)
Inductive sudoku_result : Type :=
  | Built
  | IndexError.

(** The first pair of loops of [create_sudoku_csp], over the cells still to
    visit: a blank cell ('0') gets the nine digits, any other cell the
    character it holds. *)
Fixpoint add_cells (board : list string) (cells : list (nat * nat))
  : M sudoku_result :=
  match cells with
  | [] => ret Built
  | (row, col) :: rest =>
      match board_cell board row col with
      | None => ret IndexError
      | Some ch =>
          exec add_variable (cell_name row col)
                 (if String.eqb ch "0" then digits else [VStr ch]) in
          add_cells board rest
      end
  end.

(** [for row in r1: for col in r2], as the list of the pairs visited. *)
Definition nested (r1 r2 : list nat) : list (nat * nat) :=
  get_all_possible_pairs r1 r2.

Definition row_cells (row : nat) : list string :=
  map (fun col => cell_name row col) (range 0 9).

Definition col_cells (col : nat) : list string :=
  map (fun row => cell_name row col) (range 0 9).

Definition box_cells (box : nat * nat) : list string :=
  map (fun rc => cell_name (fst rc) (snd rc))
      (nested (range (fst box * 3) ((fst box + 1) * 3))
              (range (snd box * 3) ((snd box + 1) * 3))).

(** [create_sudoku_csp], from the board read from the file. *)
Definition create_sudoku_csp (board : list string) : M sudoku_result :=
  let* cells := add_cells board (nested (range 0 9) (range 0 9)) in
  match cells with
  | IndexError => ret IndexError
  | Built =>
      exec for_each (range 0 9)
             (fun row => add_all_different_constraint (row_cells row)) in
      exec for_each (range 0 9)
             (fun col => add_all_different_constraint (col_cells col)) in
      exec for_each (nested (range 0 3) (range 0 3))
             (fun box => add_all_different_constraint (box_cells box)) in
      exec listify_constraints in
      ret Built
  end.

(** * Further properties of the solver: definitions *)

(** The value [x] of [i] has a partner among the items [ys] of [j]: the
    constraint lists a pair ([x], [y]) with [y] in [ys]. *)
Definition has_support (cij : list (value * value)) (ys : list value)
    (x : value) : Prop :=
  exists y, In y ys /\ In (x, y) cij.

(** The copy of the domains of [equal_pair], and the world that holds it. *)
Definition equal_pair_copy : dict obj := fst (copied equal_pair).
Definition equal_pair_world : world := snd (copied equal_pair).

(** The counters after a search step, against the counters before: neither
    decreases, and [failed] has grown by no more than [backtracks]. *)
Definition counted (w w' : world) : Prop :=
  backtracks (self w) <= backtracks (self w') /\
  failed (self w) <= failed (self w') /\
  failed (self w') + backtracks (self w)
  <= failed (self w) + backtracks (self w').

(** [self.constraints[i][j]] when both keys are there. *)
Definition constraint_of (c : CSP) (i j : string) : option pairs :=
  match dict_get (constraints c) i with
  | Some ci => dict_get ci j
  | None => None
  end.

(** The value pairs a constraint on (i, j) starts from: the pairs already
    stored for (i, j), or else the product of the two domain templates. *)
Definition candidate_pairs (w : world) (i j : string)
    (old : list (value * value)) : Prop :=
  match constraint_of (self w) i j with
  | Some p => old = pairs_items p
  | None =>
      exists oi oj a b,
        dict_get (domains (self w)) i = Some oi /\
        dict_get (domains (self w)) j = Some oj /\
        contents (store w) oi = Ok a /\ contents (store w) oj = Ok b /\
        old = get_all_possible_pairs a b
  end.

(** The graph after the constraint on (i, j) has been set to [kept]. *)
Definition with_constraint (w : world) (i j : string) (ci : dict pairs)
    (kept : list (value * value)) : world :=
  {| self := set_constraints (self w)
               (dict_set (constraints (self w)) i (dict_set ci j (PIter kept)));
     store := store w |}.

(** The keys of the constraint dictionaries are distinct, as the keys of a
    Python dictionary are. *)
Definition keys_ok (c : CSP) : Prop :=
  NoDup (dict_keys (constraints c)) /\
  forall i ci, In (i, ci) (constraints c) -> NoDup (dict_keys ci).

(** Every domain template is a list of the heap. *)
Definition templates_ok (w : world) : Prop :=
  forall i o, dict_get (domains (self w)) i = Some o ->
              exists l, o = ORef l /\ l < length (store w).

(** What graph construction maintains. *)
Definition well_built (w : world) : Prop :=
  graph_ok (self w) /\ keys_ok (self w) /\ templates_ok w.

(** Two declared variables and no constraint. *)
Definition two_variables : world :=
  build (exec add_variable "A" [VStr "1"; VStr "2"] in
         add_variable "B" [VStr "1"; VStr "2"]).

(** Two worlds with the same variables, domain templates and heap. *)
Definition same_base (w w' : world) : Prop :=
  variables (self w') = variables (self w) /\
  domains (self w') = domains (self w) /\
  store w' = store w.

(** The constraint on (i, j) in [w'] is a [filter] object that yields the
    pairs of unequal values among those (i, j) started from in [w]. *)
Definition differ_registered (w w' : world) (i j : string) : Prop :=
  exists old kept,
    candidate_pairs w i j old /\
    constraint_of (self w') i j = Some (PIter kept) /\
    forall x y, In (x, y) kept <-> In (x, y) old /\ x <> y.

(** ** The units of a Sudoku board *)

(** A board the builder can read: nine lines of at least nine
    characters. *)
Definition readable (board : list string) : bool :=
  forallb (fun rc => match board_cell board (fst rc) (snd rc) with
                     | Some _ => true
                     | None => false
                     end)
          (nested (range 0 9) (range 0 9)).

(** What [add_cells] gives the cell as its domain. *)
Definition cell_domain (board : list string) (row col : nat) : list value :=
  match board_cell board row col with
  | Some ch => if String.eqb ch "0" then digits else [VStr ch]
  | None => []
  end.

Definition mem (i : string) (u : list string) : bool :=
  existsb (String.eqb i) u.

(** Two different variables lie in a common unit. *)
Definition shares (units : list (list string)) (i j : string) : bool :=
  negb (String.eqb i j) && existsb (fun u => mem i u && mem j u) units.

(** The lists that [create_sudoku_csp] passes to
    [add_all_different_constraint], in its order: rows, columns, boxes. *)
Definition sudoku_units : list (list string) :=
  map row_cells (range 0 9) ++ map col_cells (range 0 9)
  ++ map box_cells (nested (range 0 3) (range 0 3)).

(** Two different cells in the same row, column or box. *)
Definition peers (p q : nat * nat) : bool :=
  negb (Nat.eqb (fst p) (fst q) && Nat.eqb (snd p) (snd q)) &&
  (Nat.eqb (fst p) (fst q) || Nat.eqb (snd p) (snd q) ||
   (Nat.eqb (fst p / 3) (fst q / 3) && Nat.eqb (snd p / 3) (snd q / 3))).

(** The cells in the order [create_sudoku_csp] declares them. *)
Definition all_cells : list (nat * nat) := nested (range 0 9) (range 0 9).

Definition name_of (rc : nat * nat) : string := cell_name (fst rc) (snd rc).

(** The cell is a variable whose domain template holds [cell_domain]. *)
Definition cell_declared (board : list string) (w : world) (rc : nat * nat)
  : Prop :=
  exists l, dict_get (domains (self w)) (name_of rc) = Some (ORef l) /\
            cell (store w) l = cell_domain board (fst rc) (snd rc).

(** No constraint has been registered. *)
Definition unconstrained (c : CSP) : Prop :=
  forall i ci, In (i, ci) (constraints c) -> ci = [].

(** A board for the examples: nine lines of nine digits, '0' for a blank
    cell. *)
Definition sample_board : list string :=
  ["003020600"; "900305001"; "001806400"; "008102900"; "700000008";
   "006708200"; "002609500"; "800203009"; "005010300"]%string.



(** * Properties *)

(** ** Dictionaries *)

Section DictFacts.
Context {V : Type}.
Implicit Types (d : dict V) (k : string) (v : V).

Lemma dict_get_set d k v k' :
  dict_get (dict_set d k v) k' =
  if String.eqb k' k then Some v else dict_get d k'.
Proof.
  induction d as [|[k0 v0] d IH]; simpl.
  - reflexivity.
  - destruct (String.eqb_spec k k0) as [->|Hk]; simpl.
    + destruct (String.eqb_spec k' k0); reflexivity.
    + rewrite IH. destruct (String.eqb_spec k' k0) as [->|]; [|reflexivity].
      destruct (String.eqb_spec k0 k); congruence.
Qed.

Lemma dict_set_length d k v v0 :
  dict_get d k = Some v0 -> length (dict_set d k v) = length d.
Proof.
  induction d as [|[k0 v1] d IH]; simpl; [discriminate|].
  destruct (String.eqb k k0); simpl; auto.
Qed.

Lemma dict_get_In d k v : dict_get d k = Some v -> In (k, v) d.
Proof.
  induction d as [|[k0 v0] d IH]; simpl; [discriminate|].
  destruct (String.eqb_spec k k0) as [->|]; intros H.
  - left. congruence.
  - right. auto.
Qed.

Lemma dict_keys_get d k :
  In k (dict_keys d) <-> exists v, dict_get d k = Some v.
Proof.
  induction d as [|[k0 v0] d IH]; simpl.
  - split; [tauto | intros [v H]; discriminate].
  - destruct (String.eqb_spec k k0) as [->|Hk].
    + split; eauto.
    + rewrite <- IH. split; [intros [?|?]; congruence || auto | auto].
Qed.

Lemma dict_mem_keys d k : dict_mem d k = true <-> In k (dict_keys d).
Proof.
  rewrite dict_keys_get. unfold dict_mem.
  destruct (dict_get d k); split; eauto; try discriminate.
  intros [v H]; discriminate.
Qed.

End DictFacts.

(** ** Rules for stepping through a method *)

Lemma wp_bind {A B} (m : M A) (k : A -> M B) w Q :
  wp m w (fun r w1 => match r with
                      | Ok a => wp (k a) w1 Q
                      | Raise e => Q (Raise e) w1
                      end) ->
  wp (bind m k) w Q.
Proof.
  unfold wp, bind. destruct (m w) as [[a|e] w1]; simpl; auto.
Qed.

Lemma wp_mono {A} (m : M A) w (Q Q' : outcome A -> world -> Prop) :
  wp m w Q -> (forall r w', Q r w' -> Q' r w') -> wp m w Q'.
Proof. unfold wp. auto. Qed.

Lemma wp_run {A} (m : M A) w r w' Q : wp m w Q -> m w = (r, w') -> Q r w'.
Proof. unfold wp. intros H E. rewrite E in H. exact H. Qed.

Lemma wp_ret {A} (a : A) w (Q : outcome A -> world -> Prop) :
  Q (Ok a) w -> wp (ret a) w Q.
Proof. auto. Qed.

Lemma wp_raise {A} e w (Q : outcome A -> world -> Prop) :
  Q (Raise e) w -> wp (raise e) w Q.
Proof. auto. Qed.

Lemma wp_get_self w (Q : outcome CSP -> world -> Prop) :
  Q (Ok (self w)) w -> wp get_self w Q.
Proof. auto. Qed.

Lemma wp_get_store w (Q : outcome heap -> world -> Prop) :
  Q (Ok (store w)) w -> wp get_store w Q.
Proof. auto. Qed.

Lemma wp_lift {A} (r : outcome A) w (Q : outcome A -> world -> Prop) :
  Q r w -> wp (lift r) w Q.
Proof. destruct r; auto. Qed.

Lemma wp_subscript {V} (d : dict V) k w (Q : outcome V -> world -> Prop) :
  match dict_get d k with
  | Some v => Q (Ok v) w
  | None => Q (Raise KeyError) w
  end -> wp (subscript d k) w Q.
Proof. unfold wp, subscript. destruct (dict_get d k); auto. Qed.

Lemma wp_iter_next o k w (Q : outcome (option value) -> world -> Prop) :
  match contents (store w) o with
  | Ok items => Q (Ok (items !! k)) w
  | Raise e => Q (Raise e) w
  end -> wp (iter_next o k) w Q.
Proof.
  unfold wp, iter_next, bind, get_store; simpl.
  destruct (contents (store w) o); auto.
Qed.

Lemma wp_py_len o w (Q : outcome nat -> world -> Prop) :
  match contents (store w) o with
  | Ok items => Q (Ok (length items)) w
  | Raise e => Q (Raise e) w
  end -> wp (py_len o) w Q.
Proof.
  unfold wp, py_len, bind, get_store; simpl.
  destruct (contents (store w) o); auto.
Qed.

Lemma wp_put_self c w (Q : outcome unit -> world -> Prop) :
  Q (Ok tt) {| self := c; store := store w |} -> wp (put_self c) w Q.
Proof. auto. Qed.

Lemma wp_put_store h w (Q : outcome unit -> world -> Prop) :
  Q (Ok tt) {| self := self w; store := h |} -> wp (put_store h) w Q.
Proof. auto. Qed.

Ltac wp_step :=
  lazymatch goal with
  | |- wp (bind _ _) _ _ => apply wp_bind
  | |- wp (ret _) _ _ => apply wp_ret
  | |- wp (raise _) _ _ => apply wp_raise
  | |- wp get_store _ _ => apply wp_get_store
  | |- wp get_self _ _ => apply wp_get_self
  | |- wp (put_self _) _ _ => apply wp_put_self
  | |- wp (put_store _) _ _ => apply wp_put_store
  | |- wp (lift _) _ _ => apply wp_lift
  | |- wp (subscript _ _) _ _ => apply wp_subscript
  | |- wp (iter_next _ _) _ _ => apply wp_iter_next
  | |- wp (py_len _) _ _ => apply wp_py_len
  end.

(** Methods that only read leave the world as it is. *)

Lemma wp_reads {A} (m : M A) w (Q : outcome A -> world -> Prop) :
  reads m -> (forall r, Q r w) -> wp m w Q.
Proof. unfold wp. intros H HQ. rewrite H. apply HQ. Qed.

Lemma reads_ret {A} (a : A) : reads (ret a).
Proof. intros w. reflexivity. Qed.

Lemma reads_raise {A} e : reads (@raise A e).
Proof. intros w. reflexivity. Qed.

Lemma reads_bind {A B} (m : M A) (k : A -> M B) :
  reads m -> (forall a, reads (k a)) -> reads (bind m k).
Proof.
  intros Hm Hk w. unfold bind. specialize (Hm w).
  destruct (m w) as [[a|e] w1]; simpl in *; subst; auto. apply Hk.
Qed.

Lemma reads_subscript {V} (d : dict V) k : reads (subscript d k).
Proof. intros w. unfold subscript. destruct (dict_get d k); reflexivity. Qed.

Lemma reads_lift {A} (r : outcome A) : reads (lift r).
Proof. intros w. destruct r; reflexivity. Qed.

Lemma reads_get_self : reads get_self.
Proof. intros w. reflexivity. Qed.

Lemma reads_get_store : reads get_store.
Proof. intros w. reflexivity. Qed.

Create HintDb reads.

#[local] Hint Resolve reads_ret reads_raise reads_subscript reads_lift
  reads_get_self reads_get_store : reads.

Ltac reads_tac :=
  repeat first
    [ apply reads_bind; [|intros ?]
    | solve [auto with reads]
    | match goal with
      | |- reads (match ?x with _ => _ end) => destruct x
      end ].

Lemma reads_py_len o : reads (py_len o).
Proof. unfold py_len. reads_tac. Qed.

Lemma reads_iter_next o k : reads (iter_next o k).
Proof. unfold iter_next. reads_tac. Qed.

Lemma reads_py_contains x o : reads (py_contains x o).
Proof. unfold py_contains. reads_tac. Qed.

Lemma reads_get_all_arcs : reads get_all_arcs.
Proof. unfold get_all_arcs. reads_tac. Qed.

Lemma reads_get_all_neighboring_arcs var :
  reads (get_all_neighboring_arcs var).
Proof. unfold get_all_neighboring_arcs. reads_tac. Qed.

Lemma reads_remaining_key a var : reads (remaining_key a var).
Proof. unfold remaining_key. reads_tac. Qed.

#[local] Hint Resolve reads_py_len reads_iter_next reads_py_contains
  reads_get_all_arcs reads_get_all_neighboring_arcs reads_remaining_key : reads.

(** ** Values and sequences *)

Lemma value_eqb_eq a b : value_eqb a b = true <-> a = b.
Proof.
  destruct a, b; simpl; split; intros H; try discriminate; try congruence.
  - apply String.eqb_eq in H. congruence.
  - inversion H. apply String.eqb_refl.
  - apply Z.eqb_eq in H. congruence.
  - inversion H. apply Z.eqb_refl.
Qed.

Lemma value_eqb_refl a : value_eqb a a = true.
Proof. apply value_eqb_eq. reflexivity. Qed.

Lemma existsb_value_eqb x (l : list value) :
  existsb (value_eqb x) l = true <-> In x l.
Proof.
  rewrite existsb_exists. split.
  - intros [y [Hy E]]. apply value_eqb_eq in E. congruence.
  - intros H. exists x. split; [exact H | apply value_eqb_refl].
Qed.

Lemma remove_first_length x (l : list value) :
  In x l -> S (length (remove_first x l)) = length l.
Proof.
  induction l as [|y l IH]; simpl; [tauto|].
  destruct (value_eqb y x) eqn:E; [reflexivity|].
  intros [->|H]; [rewrite value_eqb_refl in E; discriminate|].
  simpl. rewrite IH; auto.
Qed.

Lemma remove_first_sublist x (l : list value) : sublist (remove_first x l) l.
Proof.
  induction l as [|y l IH]; simpl; [constructor|].
  destruct (value_eqb y x).
  - apply sublist_cons. reflexivity.
  - apply sublist_skip. exact IH.
Qed.

Lemma substring_of_char c s :
  In c (list_ascii_of_string s) ->
  substring_of (String c EmptyString) s = true.
Proof.
  induction s as [|c0 s IH]; simpl; [tauto|].
  intros [->|H].
  - destruct (ascii_dec c c); [|congruence]. destruct s; reflexivity.
  - rewrite (IH H). apply orb_true_r.
Qed.

Lemma store_size_insert (h : heap) l c c' :
  h !! l = Some c ->
  store_size (<[l := c']> h) + length c = store_size h + length c'.
Proof.
  revert l.
  induction h as [|c0 h IH]; intros [|l]; simpl; try discriminate.
  - intros [= ->]. lia.
  - intros H. specialize (IH l H). lia.
Qed.

Lemma cell_insert (h : heap) l l' c :
  cell (<[l := c]> h) l' =
  if decide (l = l' /\ l < length h) then c else cell h l'.
Proof.
  unfold cell. destruct (decide (l = l' /\ l < length h)) as [[-> Hl]|Hn].
  - rewrite list_lookup_insert_eq; auto.
  - destruct (decide (l = l')) as [->|Hne].
    + rewrite list_insert_ge; [reflexivity | lia].
    + rewrite list_lookup_insert_ne; auto.
Qed.

(** ** The graph and the heap across a call *)

Lemma graph_kept_refl c : graph_kept c c.
Proof. split; auto. Qed.

Lemma listified_constraints c c' :
  constraints c' = constraints c -> listified c' = listified c.
Proof. unfold listified. intros ->. reflexivity. Qed.

Lemma graph_kept_trans c1 c2 c3 :
  graph_kept c1 c2 -> graph_kept c2 c3 -> graph_kept c1 c3.
Proof.
  intros [V1 D1 S1 L1] [V2 D2 S2 L2]. split; try congruence.
  intros H. rewrite L2, L1; auto.
  rewrite (listified_constraints c1 c2); auto.
Qed.

Lemma arcs_of_shape cs :
  arcs_of cs = flat_map (fun e => map (fun j => (fst e, j)) (snd e)) (shape cs).
Proof.
  unfold arcs_of, shape. induction cs as [|e cs IH]; simpl; congruence.
Qed.

Lemma graph_kept_arcs c c' :
  graph_kept c c' -> arcs_of (constraints c') = arcs_of (constraints c).
Proof. intros K. rewrite !arcs_of_shape, (kept_shape _ _ K). reflexivity. Qed.

Lemma graph_kept_arc_count c c' :
  graph_kept c c' -> arc_count c' = arc_count c.
Proof. intros K. unfold arc_count. rewrite (graph_kept_arcs _ _ K). reflexivity. Qed.

Lemma dict_set_keys {V} (d : dict V) k v v0 :
  dict_get d k = Some v0 -> dict_keys (dict_set d k v) = dict_keys d.
Proof.
  induction d as [|[k0 v1] d IH]; simpl; [discriminate|].
  destruct (String.eqb_spec k k0) as [->|]; simpl; [reflexivity|].
  intros H. rewrite IH; auto.
Qed.

Lemma shape_set cs i ci ci' :
  dict_get cs i = Some ci -> dict_keys ci' = dict_keys ci ->
  shape (dict_set cs i ci') = shape cs.
Proof.
  unfold shape. induction cs as [|[k0 v1] cs IH]; simpl; [discriminate|].
  destruct (String.eqb_spec i k0) as [->|]; simpl.
  - intros [= ->] ->. reflexivity.
  - intros H1 H2. rewrite IH; auto.
Qed.

Lemma listified_get c i ci j p :
  listified c = true ->
  dict_get (constraints c) i = Some ci -> dict_get ci j = Some p ->
  is_list p = true.
Proof.
  unfold listified. rewrite forallb_forall. intros H Hi Hj.
  apply dict_get_In in Hi. apply dict_get_In in Hj.
  specialize (H _ Hi). simpl in H. rewrite forallb_forall in H.
  apply (H _ Hj).
Qed.

Lemma store_kept_refl it h : store_kept it h h.
Proof. split; auto. Qed.

Lemma store_kept_trans it h1 h2 h3 :
  store_kept it h1 h2 -> store_kept it h2 h3 -> store_kept it h1 h3.
Proof.
  intros [A1 B1 C1 D1] [A2 B2 C2 D2]. split.
  - congruence.
  - lia.
  - intros l. etransitivity; eauto.
  - intros l H. rewrite D2, D1; auto.
Qed.

(** ** The effect of [revise] *)

Lemma read_constraint_effect i j w :
  wp (read_constraint i j) w (fun _ w' =>
    (graph_kept (self w) (self w') /\ counters_kept (self w) (self w'))
    /\ store w' = store w).
Proof.
  unfold wp, read_constraint, bind, get_self, subscript, ret, raise; simpl.
  destruct (dict_get (constraints (self w)) i) as [ci|] eqn:Ei; simpl;
    [|split; [split; [apply graph_kept_refl|split; reflexivity]|reflexivity]].
  destruct (dict_get ci j) as [p|] eqn:Ej; simpl;
    [|split; [split; [apply graph_kept_refl|split; reflexivity]|reflexivity]].
  destruct p as [l|l]; simpl;
    (split; [split; [|split; reflexivity]|reflexivity]).
  - apply graph_kept_refl.
  - split; simpl; auto.
    + eapply shape_set; eauto. eapply dict_set_keys; eauto.
    + intros L. pose proof (listified_get _ _ _ _ _ L Ei Ej). discriminate.
Qed.

Lemma py_contains_item h it items k x w :
  store w = h -> contents h it = Ok items -> items !! k = Some x ->
  py_contains x it w = (Ok true, w).
Proof.
  intros <- Hc Hk. apply list_elem_of_lookup_2 in Hk.
  apply list_elem_of_In in Hk.
  destruct it as [l|[s|z]]; simpl in Hc; inversion Hc; subst; clear Hc.
  - unfold py_contains, bind, get_store, ret; simpl.
    apply existsb_value_eqb in Hk. rewrite Hk. reflexivity.
  - unfold chars in Hk. apply in_map_iff in Hk as [c [<- Hc]].
    simpl. rewrite substring_of_char; auto.
Qed.

Lemma py_remove_effect it x w :
  wp (py_remove it x) w (fun r w' =>
    match r with
    | Ok _ => self w' = self w /\ store_kept it (store w) (store w')
              /\ shrunk it w w'
    | Raise _ => w' = w
    end).
Proof.
  unfold wp. destruct it as [l|v]; simpl; [|reflexivity].
  unfold bind, get_store; simpl.
  destruct (existsb (value_eqb x) (cell (store w) l)) eqn:E; simpl;
    [|reflexivity].
  apply existsb_value_eqb in E.
  assert (Hl : store w !! l = Some (cell (store w) l)).
  { unfold cell in *. destruct (store w !! l); [reflexivity|destruct E]. }
  pose proof (remove_first_length _ _ E) as Hlen.
  pose proof (store_size_insert _ _ _ (remove_first x (cell (store w) l)) Hl).
  split; [reflexivity|]. split; [split|]; simpl.
  - apply length_insert.
  - lia.
  - intros l'. rewrite cell_insert. destruct (decide _) as [[-> _]|_]; [|reflexivity].
    apply remove_first_sublist.
  - intros l' Hne. apply list_lookup_insert_ne. congruence.
  - unfold shrunk; simpl. split; [lia|]. exists l. split; [reflexivity|].
    rewrite cell_insert. apply lookup_lt_Some in Hl.
    destruct (decide _) as [_|Hn]; [lia|tauto].
Qed.

Lemma ac3_kept_refl it w : ac3_kept it w w.
Proof.
  split; [apply graph_kept_refl | split; reflexivity | apply store_kept_refl].
Qed.

Lemma ac3_kept_trans it w1 w2 w3 :
  ac3_kept it w1 w2 -> ac3_kept it w2 w3 -> ac3_kept it w1 w3.
Proof.
  intros [G1 [B1 F1] S1] [G2 [B2 F2] S2]. split.
  - eapply graph_kept_trans; eauto.
  - split; congruence.
  - eapply store_kept_trans; eauto.
Qed.

Lemma revise_loop_effect n a i j it k revised w :
  dict_get a i = Some it ->
  wp (revise_loop n a i j it k revised) w (fun r w' =>
    ac3_kept it w w' /\
    forall b, r = Ok b -> b = revised \/ (b = true /\ shrunk it w w')).
Proof.
  intros Hi. revert k revised w.
  induction n as [|n IH]; intros k revised w; simpl.
  - wp_step. split; [apply ac3_kept_refl|]. intros b Hb; inversion Hb; auto.
  - do 2 wp_step.
    destruct (contents (store w) it) as [items|e] eqn:Ec;
      [|split; [apply ac3_kept_refl|intros ? [=]]].
    destruct (items !! k) as [x|] eqn:Ek;
      [|wp_step; split; [apply ac3_kept_refl|intros b Hb; inversion Hb; auto]].
    do 2 wp_step.
    destruct (dict_get a j) as [oj|];
      [|split; [apply ac3_kept_refl|intros ? [=]]].
    do 4 wp_step.
    destruct (contents (store w) oj) as [ys|e];
      [|split; [apply ac3_kept_refl|intros ? [=]]].
    wp_step. eapply wp_mono; [apply read_constraint_effect|].
    intros r w1 [[G C] S].
    assert (K1 : ac3_kept it w w1).
    { split; auto. rewrite S. apply store_kept_refl. }
    destruct r as [cij|e]; [|split; [exact K1|intros ? [=]]].
    destruct (length _ <? 1).
    + do 2 wp_step. rewrite Hi. wp_step.
      unfold wp at 1.
      rewrite (py_contains_item (store w) it items k x w1); auto. simpl.
      wp_step. eapply wp_mono; [apply py_remove_effect|].
      intros [[]|e] w2 P.
      * destruct P as [P1 [P2 P3]].
        assert (K2 : ac3_kept it w w2).
        { eapply ac3_kept_trans; [exact K1|].
          split; [rewrite P1; apply graph_kept_refl
                 |rewrite P1; split; reflexivity|exact P2]. }
        eapply wp_mono; [apply IH|]. intros r w3 [K3 HR]. split.
        -- eapply ac3_kept_trans; eauto.
        -- intros b Hb. right.
           assert (shrunk it w w3).
           { destruct P3 as [P3 [l [-> P4]]]. rewrite S in P3, P4.
             destruct K3 as [_ _ [_ Hs Hsub _]]. split; [lia|].
             exists l. split; [reflexivity|].
             specialize (Hsub l). apply sublist_length in Hsub. lia. }
           destruct (HR b Hb) as [->|[-> ?]]; split; auto.
      * subst w2. split; [exact K1|intros ? [=]].
    + eapply wp_mono; [apply IH|]. intros r w3 [K3 HR]. split.
      * eapply ac3_kept_trans; eauto.
      * intros b Hb. destruct (HR b Hb) as [->|[-> [H1 [l [-> H2]]]]]; auto.
        right. split; auto. rewrite S in H1, H2. split; eauto.
Qed.

Lemma revise_effect a i j w :
  wp (revise a i j) w (fun r w' =>
    (forall it, dict_get a i = Some it -> ac3_kept it w w') /\
    (dict_get a i = None -> w' = w) /\
    (r = Ok true -> exists it, dict_get a i = Some it /\ shrunk it w w')).
Proof.
  unfold revise. do 2 wp_step.
  destruct (dict_get a i) as [it|] eqn:Hi;
    [|split; [intros ? [=]|split; [reflexivity|intros [=]]]].
  do 2 wp_step.
  destruct (contents (store w) it) as [items|e];
    [|split; [intros ? _; apply ac3_kept_refl|split; [intros [=]|intros [=]]]].
  eapply wp_mono; [apply (revise_loop_effect _ _ _ _ _ _ _ _ Hi)|].
  intros r w' [K HR]. split; [|split].
  - intros it' [= <-]. exact K.
  - intros [=].
  - intros ->. destruct (HR true eq_refl) as [[=]|[_ ?]]. eauto.
Qed.

(** ** The effect of [inference] *)

Lemma run_kept_refl a w : run_kept a w w.
Proof.
  split; auto; [apply graph_kept_refl | split; reflexivity].
Qed.

Lemma run_kept_trans a w1 w2 w3 :
  run_kept a w1 w2 -> run_kept a w2 w3 -> run_kept a w1 w3.
Proof.
  intros [G1 [B1 F1] L1 S1 U1 O1] [G2 [B2 F2] L2 S2 U2 O2]. split.
  - eapply graph_kept_trans; eauto.
  - split; congruence.
  - congruence.
  - lia.
  - intros l. etransitivity; eauto.
  - intros l H. rewrite O2, O1; auto.
Qed.

Lemma ac3_kept_run a i it w w' :
  dict_get a i = Some it -> ac3_kept it w w' -> run_kept a w w'.
Proof.
  intros Hi [G C [L S U O]]. split; auto.
  intros l Hl. apply O. intros ->. apply Hl. exists i.
  apply dict_get_In, Hi.
Qed.

Lemma revise_run_kept a i j w :
  wp (revise a i j) w (fun r w' =>
    run_kept a w w' /\
    (r = Ok true -> store_size (store w') < store_size (store w))).
Proof.
  eapply wp_mono; [apply revise_effect|].
  intros r w' [K [N S]]. split; [|intros E; destruct (S E) as [? [_ [? _]]]; auto].
  destruct (dict_get a i) as [it|] eqn:Hi.
  - eapply ac3_kept_run; eauto.
  - rewrite N; auto. apply run_kept_refl.
Qed.

Lemma bind_ext {A B} (m : M A) (k1 k2 : A -> M B) w :
  (forall a w1, m w = (Ok a, w1) -> k1 a w1 = k2 a w1) ->
  bind m k1 w = bind m k2 w.
Proof.
  intros H. unfold bind. destruct (m w) as [[a|e] w1]; auto.
Qed.

Lemma reads_run {A} (m : M A) w r w' : reads m -> m w = (r, w') -> w' = w.
Proof. intros H E. specialize (H w). rewrite E in H. exact H. Qed.

Lemma length_requeued i j arcs : length (requeued i j arcs) <= length arcs.
Proof.
  unfold requeued. rewrite length_map. apply filter_length_le.
Qed.

Lemma length_arcs_of cs i inner :
  dict_get cs i = Some inner -> length inner <= length (arcs_of cs).
Proof.
  unfold arcs_of. induction cs as [|[k ci] cs IH]; simpl; [discriminate|].
  rewrite length_app, length_map. unfold dict_keys at 1. rewrite length_map.
  destruct (String.eqb i k).
  - intros [= ->]. lia.
  - intros H. specialize (IH H). lia.
Qed.

Lemma neighboring_arcs_length var w arcs w' :
  get_all_neighboring_arcs var w = (Ok arcs, w') ->
  length arcs <= arc_count (self w).
Proof.
  unfold get_all_neighboring_arcs, bind, get_self, subscript; simpl.
  destruct (dict_get (constraints (self w)) var) as [inner|] eqn:E; simpl;
    [|discriminate].
  intros [= <- _]. rewrite length_map. unfold dict_keys. rewrite length_map.
  apply (length_arcs_of _ _ _ E).
Qed.

Lemma bind_Ok_inv {A B} (m : M A) (k : A -> M B) w b w' :
  bind m k w = (Ok b, w') ->
  exists a w1, m w = (Ok a, w1) /\ k a w1 = (Ok b, w').
Proof.
  unfold bind. destruct (m w) as [[a|e] w1]; [eauto|discriminate].
Qed.

Lemma subscript_Ok {V} (d : dict V) k w v w' :
  subscript d k w = (Ok v, w') -> dict_get d k = Some v /\ w' = w.
Proof.
  unfold subscript. destruct (dict_get d k); [|discriminate].
  intros [= -> ->]. auto.
Qed.

Lemma py_len_ref l w n w' :
  py_len (ORef l) w = (Ok n, w') -> length (cell (store w) l) = n.
Proof. unfold py_len, bind, get_store; simpl. intros [= <- _]. reflexivity. Qed.

(** ** One iteration of the loop of [inference] *)

Lemma inference_body_Some a i j w added w' :
  inference_body a i j w = (Ok (Some added), w') ->
  (revise a i j w = (Ok false, w') /\ added = []) \/
  (revise a i j w = (Ok true, w') /\
   exists oi n arcs,
     dict_get a i = Some oi /\ py_len oi w' = (Ok (S n), w') /\
     get_all_neighboring_arcs i w' = (Ok arcs, w') /\
     added = requeued i j arcs).
Proof.
  unfold inference_body. intros H.
  apply bind_Ok_inv in H as [revised [w1 [ER H]]]. destruct revised.
  - right. apply bind_Ok_inv in H as [oi [w2 [E2 H]]].
    apply subscript_Ok in E2 as [Hoi ->].
    apply bind_Ok_inv in H as [len [w2 [E3 H]]].
    pose proof (reads_run _ _ _ _ (reads_py_len oi) E3) as ->.
    destruct len as [|n]; simpl in H; [discriminate|].
    apply bind_Ok_inv in H as [arcs [w2 [E4 H]]].
    pose proof (reads_run _ _ _ _ (reads_get_all_neighboring_arcs i) E4) as ->.
    injection H as <- <-. split; [exact ER|]. exists oi, n, arcs. auto.
  - left. injection H as <- <-. auto.
Qed.

Lemma inference_body_None a i j w w' :
  inference_body a i j w = (Ok None, w') ->
  revise a i j w = (Ok true, w') /\
  exists oi, dict_get a i = Some oi /\ py_len oi w' = (Ok 0, w').
Proof.
  unfold inference_body. intros H.
  apply bind_Ok_inv in H as [revised [w1 [ER H]]].
  destruct revised; [|discriminate].
  apply bind_Ok_inv in H as [oi [w2 [E2 H]]].
  apply subscript_Ok in E2 as [Hoi ->].
  apply bind_Ok_inv in H as [len [w2 [E3 H]]].
  pose proof (reads_run _ _ _ _ (reads_py_len oi) E3) as ->.
  destruct len as [|n]; simpl in H.
  - injection H as <-. split; [exact ER|]. exists oi. auto.
  - apply bind_Ok_inv in H as [arcs [w2 [_ H]]]. discriminate.
Qed.

Lemma inference_body_effect a i j w :
  wp (inference_body a i j) w (fun _ w' => run_kept a w w').
Proof.
  unfold inference_body. wp_step.
  eapply wp_mono; [apply revise_run_kept|].
  intros [[|]|e] w1 [K _]; [| |exact K].
  - do 2 wp_step. destruct (dict_get a i); [|exact K].
    do 2 wp_step. destruct (contents (store w1) o); [|exact K].
    destruct (length a0 =? 0); [wp_step; exact K|].
    wp_step. apply wp_reads; [auto with reads|].
    intros [arcs|e]; [wp_step|]; exact K.
  - wp_step. exact K.
Qed.

(** An iteration that goes on leaves less to do: the revision has removed
    an item, and appends no more arcs than the graph has, or it has only
    taken its arc off the queue. *)
Lemma inference_body_potential a i j q w added w' :
  inference_body a i j w = (Ok (Some added), w') ->
  potential w' (q ++ added) < potential w ((i, j) :: q).
Proof.
  intros H.
  pose proof (wp_run _ _ _ _ _ (inference_body_effect a i j w) H) as K.
  pose proof (graph_kept_arc_count _ _ (run_graph _ _ _ K)) as HA.
  pose proof (run_size _ _ _ K) as HS.
  unfold potential. rewrite length_app, HA. simpl.
  apply inference_body_Some in H as [[_ ->]|[ER [oi [n [arcs [_ [_ [E4 ->]]]]]]]].
  - apply (Nat.mul_le_mono_r _ _ (S (arc_count (self w)))) in HS.
    simpl. lia.
  - pose proof (wp_run _ _ _ _ _ (revise_run_kept a i j w) ER) as [_ Hlt].
    specialize (Hlt eq_refl).
    pose proof (neighboring_arcs_length _ _ _ _ E4) as HL.
    pose proof (length_requeued i j arcs).
    apply (Nat.mul_le_mono_r _ _ (S (arc_count (self w)))) in Hlt.
    simpl in Hlt. lia.
Qed.

Lemma inference_loop_effect fuel a q w :
  run_kept a w (snd (fst (inference_loop fuel a q w))).
Proof.
  revert q w. induction fuel as [|fuel IH]; intros [|[i j] q] w;
    cbn [inference_loop fst snd]; try apply run_kept_refl.
  pose proof (inference_body_effect a i j w) as K. unfold wp in K.
  destruct (inference_body a i j w) as [[[added|]|e] w1];
    cbn [fst snd] in *; try exact K.
  eapply run_kept_trans; [exact K|apply IH].
Qed.

Lemma inference_effect a q w :
  wp (inference_fresh a q) w (fun _ w' => run_kept a w w').
Proof. apply (inference_loop_effect (potential w q)). Qed.

(** ** The loop of [inference] always has enough fuel *)

Lemma inference_loop_fuel f1 f2 a q w :
  potential w q <= f1 -> potential w q <= f2 ->
  inference_loop f1 a q w = inference_loop f2 a q w.
Proof.
  revert f2 q w. induction f1 as [|f1 IH]; intros f2 [|[i j] q] w H1 H2;
    try (destruct f2; reflexivity);
    try (unfold potential in H1; simpl in H1; lia).
  destruct f2 as [|f2]; [unfold potential in H2; simpl in H2; lia|].
  cbn [inference_loop].
  destruct (inference_body a i j w) as [[[added|]|e] w1] eqn:E;
    try reflexivity.
  pose proof (inference_body_potential a i j q w added w1 E).
  apply IH; lia.
Qed.

(** The equations of the [while] loop: an empty queue ends it with [True];
    otherwise the first arc is popped and the body runs on it. *)
Lemma inference_nil a w : inference a [] w = (Ok true, w, []).
Proof. unfold inference, potential. simpl. rewrite Nat.add_0_r.
  destruct (store_size (store w) * S (arc_count (self w))); reflexivity. Qed.

Lemma inference_cons a i j q w :
  inference a ((i, j) :: q) w =
  match inference_body a i j w with
  | (Ok (Some added), w') => inference a (q ++ added) w'
  | (Ok None, w') => (Ok false, w', q)
  | (Raise e, w') => (Raise e, w', q)
  end.
Proof.
  unfold inference at 1.
  rewrite (inference_loop_fuel _ (S (potential w ((i, j) :: q))) a _ w);
    [|lia|lia].
  cbn [inference_loop].
  destruct (inference_body a i j w) as [[[added|]|e] w1] eqn:E;
    try reflexivity.
  pose proof (inference_body_potential a i j q w added w1 E).
  unfold inference. apply inference_loop_fuel; lia.
Qed.


(** ** Graph construction *)

Lemma dict_mem_set {V} (d : dict V) k v k' :
  dict_mem (dict_set d k v) k' = String.eqb k' k || dict_mem d k'.
Proof.
  unfold dict_mem. rewrite dict_get_set. destruct (String.eqb k' k); reflexivity.
Qed.

Lemma dict_get_map {V W} (g : V -> W) (d : dict V) k :
  dict_get (map (fun e => (fst e, g (snd e))) d) k = option_map g (dict_get d k).
Proof.
  induction d as [|[k0 v] d IH]; simpl; [reflexivity|].
  destruct (String.eqb k k0); auto.
Qed.

Lemma dict_mem_get {V} (d : dict V) k v :
  dict_get d k = Some v -> dict_mem d k = true.
Proof. unfold dict_mem. intros ->. reflexivity. Qed.

Lemma graph_ok_init : graph_ok CSP_init.
Proof.
  split; simpl; auto.
  - intros i. split; [tauto|discriminate].
  - intros i ci j [=].
Qed.

Lemma add_variable_ok name domain w :
  graph_ok (self w) -> graph_ok (self (snd (add_variable name domain w))).
Proof.
  intros [D C T]. unfold add_variable, alloc, bind, get_store, get_self; simpl.
  split; simpl.
  - intros i. rewrite dict_mem_set, in_app_iff, D. simpl.
    destruct (String.eqb_spec i name) as [->|Hn]; simpl.
    + split; auto.
    + split; [intros [?|[?|[]]]; congruence || auto | auto].
  - intros i. rewrite !dict_mem_set, C. reflexivity.
  - intros i ci j. rewrite dict_get_set, dict_mem_set.
    destruct (String.eqb i name).
    + intros [= <-]. discriminate.
    + intros H1 H2. rewrite (T _ _ _ H1 H2). apply orb_true_r.
Qed.

Lemma add_constraint_one_way_ok i j f w :
  graph_ok (self w) ->
  wp (add_constraint_one_way i j f) w (fun r w' =>
    graph_ok (self w') /\ (forall e, r = Raise e -> w' = w)).
Proof.
  intros OK. pose proof OK as [D C T].
  unfold add_constraint_one_way. do 4 wp_step.
  destruct (dict_get (constraints (self w)) i) as [ci|] eqn:Ei; [|auto].
  assert (Hfinal : forall ci1 : dict pairs,
    (forall j', dict_mem ci1 j' = true -> dict_mem (domains (self w)) j' = true) ->
    dict_mem ci1 j = true ->
    wp (let* old := subscript ci1 j in
        put_self (set_constraints (self w)
          (dict_set (constraints (self w)) i
             (dict_set ci1 j
                (PIter (List.filter (fun vp => f (fst vp) (snd vp))
                                    (pairs_items old))))))) w
       (fun r w' => graph_ok (self w') /\ (forall e, r = Raise e -> w' = w))).
  { intros ci1 H1 H2. do 2 wp_step.
    destruct (dict_get ci1 j) as [old|]; [|auto].
    wp_step. split; [|intros e [=]]. split; simpl.
    - exact D.
    - intros k. rewrite dict_mem_set, <- C.
      destruct (String.eqb_spec k i) as [->|]; [|reflexivity].
      rewrite (dict_mem_get _ _ _ Ei). reflexivity.
    - intros k ck j'. rewrite dict_get_set.
      destruct (String.eqb k i); [|apply T].
      intros [= <-]. rewrite dict_mem_set.
      destruct (String.eqb_spec j' j) as [->|]; simpl; auto. }
  wp_step. destruct (dict_mem ci j) eqn:Ej.
  - wp_step. apply Hfinal; auto. intros j'. apply (T _ _ _ Ei).
  - do 2 wp_step.
    destruct (dict_get (domains (self w)) i) as [di|]; [|auto].
    do 2 wp_step.
    destruct (dict_get (domains (self w)) j) as [dj|] eqn:Edj; [|auto].
    do 4 wp_step. destruct (contents (store w) di) as [a|e]; [|auto].
    do 2 wp_step. destruct (contents (store w) dj) as [b|e]; [|auto].
    wp_step. apply Hfinal.
    + intros j'. rewrite dict_mem_set.
      destruct (String.eqb_spec j' j) as [->|]; simpl.
      * intros _. apply (dict_mem_get _ _ _ Edj).
      * apply (T _ _ _ Ei).
    + rewrite dict_mem_set, String.eqb_refl. reflexivity.
Qed.

Lemma for_each_ok {A} (P : world -> Prop) (body : A -> M unit) l w :
  (forall x w, P w -> P (snd (body x w))) -> P w -> P (snd (for_each l body w)).
Proof.
  intros Hb. revert w. induction l as [|x l IH]; intros w Hw; simpl; [exact Hw|].
  unfold bind. specialize (Hb x w Hw).
  destruct (body x w) as [[[]|e] w1]; simpl in *; auto.
Qed.

Lemma listify_constraints_ok w :
  graph_ok (self w) -> graph_ok (self (snd (listify_constraints w))).
Proof.
  intros [D C T]. split; simpl.
  - exact D.
  - intros i. rewrite <- C. unfold dict_mem. rewrite dict_get_map.
    destruct (dict_get (constraints (self w)) i); reflexivity.
  - intros i ci j.
    rewrite (dict_get_map
               (map (fun f : string * pairs => (fst f, PList (pairs_items (snd f)))))).
    destruct (dict_get (constraints (self w)) i) as [c0|] eqn:E; simpl; [|discriminate].
    intros [= <-]. unfold dict_mem at 1.
    rewrite (dict_get_map (fun p => PList (pairs_items p))).
    intros H. apply (T _ _ j E). unfold dict_mem.
    destruct (dict_get c0 j); [reflexivity|discriminate].
Qed.

Lemma built_ok w : built w -> graph_ok (self w).
Proof.
  induction 1 as [|w name domain _ IH|w i j f _ IH|w vars _ IH|w _ IH].
  - apply graph_ok_init.
  - apply add_variable_ok, IH.
  - apply (add_constraint_one_way_ok i j f w IH).
  - apply (for_each_ok (fun w => graph_ok (self w))); [|exact IH].
    intros [a b] w0 H0; simpl. destruct (String.eqb a b); [exact H0|].
    apply (add_constraint_one_way_ok a b not_equal w0 H0).
  - apply listify_constraints_ok, IH.
Qed.

(** C9: on a graph under construction, [add_constraint_one_way] with an
    undeclared [i] or [j] raises [KeyError] at once and leaves the graph as
    it was. *)
Theorem add_constraint_one_way_undeclared w i j f :
  built w ->
  ~ declared (self w) i \/ ~ declared (self w) j ->
  add_constraint_one_way i j f w = (Raise KeyError, w).
Proof.
  intros B H. destruct (built_ok w B) as [D C T]. unfold declared in H.
  unfold add_constraint_one_way, bind, get_self, subscript; simpl.
  destruct (dict_get (constraints (self w)) i) as [ci|] eqn:Ei; [|reflexivity].
  simpl.
  assert (Hi : dict_mem (domains (self w)) i = true).
  { rewrite <- C. apply (dict_mem_get _ _ _ Ei). }
  assert (Hj : dict_mem (domains (self w)) j = false).
  { destruct H as [H|H]; [apply D in Hi; tauto|].
    destruct (dict_mem (domains (self w)) j) eqn:E; [|reflexivity].
    apply D in E. tauto. }
  destruct (dict_mem ci j) eqn:Ej.
  - rewrite (T _ _ _ Ei Ej) in Hj. discriminate.
  - unfold dict_mem in Hi, Hj. simpl.
    destruct (dict_get (domains (self w)) i); [|discriminate]. simpl.
    destruct (dict_get (domains (self w)) j); [discriminate|]. reflexivity.
Qed.

(** ** The neighbours of a variable *)

Lemma registered_keys c var i :
  registered c var i <->
  exists inner, dict_get (constraints c) var = Some inner /\ In i (dict_keys inner).
Proof.
  unfold registered. split.
  - intros [ci [p [H1 H2]]]. exists ci. split; auto.
    apply dict_keys_get. eauto.
  - intros [ci [H1 H2]]. apply dict_keys_get in H2 as [p H2]. eauto.
Qed.

(** C8, amended: [get_all_neighboring_arcs(var)] returns the arcs
    (i, var) for the variables [i] such that the constraint (var, i) is
    registered, in the order of registration; on a graph whose constraints
    are all registered in both directions these are the incoming arcs of
    [var]. *)
Theorem get_all_neighboring_arcs_outgoing w var arcs w' :
  get_all_neighboring_arcs var w = (Ok arcs, w') ->
  w' = w /\
  (exists inner, dict_get (constraints (self w)) var = Some inner /\
                 arcs = map (fun i => (i, var)) (dict_keys inner)) /\
  (forall i v, In (i, v) arcs <-> v = var /\ registered (self w) var i) /\
  (two_way (self w) ->
   forall i v, In (i, v) arcs <-> v = var /\ registered (self w) i var).
Proof.
  unfold get_all_neighboring_arcs, bind, get_self, subscript; simpl.
  destruct (dict_get (constraints (self w)) var) as [inner|] eqn:E; simpl;
    [|discriminate].
  intros [= <- <-].
  assert (Hout : forall i v, In (i, v) (map (fun i0 => (i0, var)) (dict_keys inner))
                             <-> v = var /\ registered (self w) var i).
  { intros i v. rewrite in_map_iff, registered_keys. split.
    - intros [k [[= -> ->] Hk]]. eauto.
    - intros [-> [inner' [E' Hk]]]. exists i. split; congruence. }
  split; [reflexivity|]. split; [eauto|]. split; [exact Hout|].
  intros TW i v. rewrite Hout.
  split; intros [-> R]; (split; [reflexivity|apply TW, R]).
Qed.

(** ** Failure of [inference] *)

Lemma inference_loop_false fuel a q w w' :
  fst (inference_loop fuel a q w) = (Ok false, w') ->
  exists i j q1 w1,
    rtc (ac3_step a) (q, w) ((i, j) :: q1, w1) /\
    emptying_revision a i j w1 w'.
Proof.
  revert q w. induction fuel as [|fuel IH]; intros [|[i j] q] w;
    cbn [inference_loop fst]; try discriminate.
  destruct (inference_body a i j w) as [[[added|]|e] w1] eqn:E;
    cbn [fst]; try discriminate.
  - intros H. destruct (IH _ _ H) as [i' [j' [q1 [w3 [R Em]]]]].
    exists i', j', q1, w3. split; [|exact Em].
    eapply rtc_l; [|exact R].
    apply inference_body_Some in E
      as [[ER ->]|[ER [oi [n [arcs [Hoi [E3 [E4 ->]]]]]]]].
    + rewrite app_nil_r. apply step_unrevised. exact ER.
    + eapply step_revised; eauto.
  - intros [= <-]. apply inference_body_None in E as [ER [oi [Hoi E3]]].
    exists i, j, q, w. split; [apply rtc_refl|].
    split; [exact ER|].
    destruct (wp_run _ _ _ _ _ (revise_effect a i j w) ER) as [_ [_ S]].
    destruct (S eq_refl) as [it [Hit [_ [l [-> Hlt]]]]].
    exists l. split; [exact Hit|].
    assert (oi = ORef l) as -> by congruence.
    apply py_len_ref in E3. split.
    + apply length_zero_iff_nil, E3.
    + intros El. rewrite El in Hlt. simpl in Hlt. lia.
Qed.

Lemma inference_body_unrevised a i j w :
  revise a i j w = (Ok false, w) ->
  inference_body a i j w = (Ok (Some []), w).
Proof. intros H. unfold inference_body, bind. rewrite H. reflexivity. Qed.

Lemma inference_no_removal a q w :
  (forall i j, In (i, j) q -> revise a i j w = (Ok false, w)) ->
  inference a q w = (Ok true, w, []).
Proof.
  induction q as [|[i j] q IH]; intros H.
  - apply inference_nil.
  - rewrite inference_cons.
    rewrite (inference_body_unrevised a i j w) by (apply H; left; reflexivity).
    rewrite app_nil_r.
    apply IH. intros i' j' Hin. apply H. right. exact Hin.
Qed.

(** C10: an empty domain in the assignment passed to [inference] is not
    reported on entry. The call returns [False] only from an iteration
    whose revision removed an item and left a domain empty; when no
    revision on the arcs of the queue removes anything, it returns [True]
    and changes nothing but the queue, which it empties: the empty domain
    is still there. *)
Theorem inference_empty_domain_on_entry a q w v l :
  dict_get a v = Some (ORef l) -> cell (store w) l = [] ->
  (forall w', fst (inference a q w) = (Ok false, w') ->
     exists i j q1 w1,
       rtc (ac3_step a) (q, w) ((i, j) :: q1, w1) /\
       emptying_revision a i j w1 w') /\
  ((forall i j, In (i, j) q -> revise a i j w = (Ok false, w)) ->
   inference a q w = (Ok true, w, []) /\ cell (store w) l = []).
Proof.
  intros Hv He. split.
  - intros w'. apply inference_loop_false.
  - intros H. split; [apply inference_no_removal, H|exact He].
Qed.

(** ** The effect of the search *)

Lemma search_kept_refl n w : search_kept n w w.
Proof. split; auto. apply graph_kept_refl. Qed.

Lemma search_kept_trans n w1 w2 w3 :
  search_kept n w1 w2 -> search_kept n w2 w3 -> search_kept n w1 w3.
Proof.
  intros [G1 L1 O1] [G2 L2 O2]. split.
  - eapply graph_kept_trans; eauto.
  - lia.
  - intros l Hl. rewrite O2, O1; auto.
Qed.

Lemma run_kept_search a n w w' :
  fresh a n -> run_kept a w w' -> search_kept n w w'.
Proof.
  intros F [G _ L _ _ O]. split; auto; [lia|].
  intros l Hl. apply O. intros [k Hk]. apply F in Hk. lia.
Qed.

Lemma dict_set_In {V} (d : dict V) k v k' v' :
  In (k', v') (dict_set d k v) -> (k', v') = (k, v) \/ In (k', v') d.
Proof.
  induction d as [|[k0 v0] d IH]; simpl.
  - intros [H|[]]; auto.
  - destruct (String.eqb k k0); simpl; intros [H|H]; auto.
    destruct (IH H); auto.
Qed.

Lemma alloc_effect items n w :
  n <= length (store w) ->
  wp (alloc items) w (fun r w' =>
    r = Ok (length (store w)) /\ search_kept n w w' /\
    length (store w') = S (length (store w))).
Proof.
  intros Hn. unfold wp, alloc, bind, get_store; simpl.
  split; [reflexivity|]. split; [split; simpl|].
  - apply graph_kept_refl.
  - rewrite length_app. lia.
  - intros l Hl. apply lookup_app_l. lia.
  - rewrite length_app. simpl. lia.
Qed.

Lemma deepcopy_items_effect d memo n w :
  n <= length (store w) ->
  (forall l0 l', memo_get memo l0 = Some l' -> n <= l') ->
  wp (deepcopy_items d memo) w (fun r w' =>
    search_kept n w w' /\ forall d', r = Ok d' -> fresh d' n).
Proof.
  revert memo w. induction d as [|[k [l|v]] d IH]; intros memo w Hn Hm; simpl.
  - wp_step. split; [apply search_kept_refl|].
    intros d' [= <-] k l [].
  - destruct (memo_get memo l) as [l'|] eqn:El.
    + wp_step. eapply wp_mono; [apply (IH memo w Hn Hm)|].
      intros [r|e] w1 [K F]; [|split; [exact K|intros ? [=]]].
      wp_step. split; [exact K|]. intros d' [= <-] k' l0 [[= <- <-]|Hin].
      * eapply Hm; eauto.
      * eapply F; eauto.
    + do 3 wp_step. eapply wp_mono; [apply (alloc_effect _ n w Hn)|].
      intros r w1 [-> [K1 L1]].
      wp_step. eapply wp_mono; [apply (IH ((l, length (store w)) :: memo) w1)|].
      * lia.
      * intros l0 l'. simpl. destruct (l =? l0); [intros [= <-]; lia|apply Hm].
      * intros [r|e] w2 [K2 F];
          [|split; [eapply search_kept_trans; eauto|intros ? [=]]].
        wp_step. split; [eapply search_kept_trans; eauto|].
        intros d' [= <-] k' l0 [[= <- <-]|Hin]; [lia|].
        eapply F; eauto.
  - wp_step. eapply wp_mono; [apply (IH memo w Hn Hm)|].
    intros [r|e] w1 [K F]; [|split; [exact K|intros ? [=]]].
    wp_step. split; [exact K|]. intros d' [= <-] k' l0 [[=]|Hin].
    eapply F; eauto.
Qed.

Lemma deepcopy_effect d n w :
  n <= length (store w) ->
  wp (deepcopy d) w (fun r w' =>
    search_kept n w w' /\ forall d', r = Ok d' -> fresh d' n).
Proof.
  intros Hn. apply deepcopy_items_effect; [exact Hn|].
  intros l0 l' [=].
Qed.

Lemma assign_copy_effect a var val n w :
  n <= length (store w) ->
  wp (assign_copy a var val) w (fun r w' =>
    search_kept n w w' /\ forall tmp, r = Ok tmp -> fresh tmp n).
Proof.
  intros Hn. unfold assign_copy. wp_step.
  eapply wp_mono; [apply (deepcopy_effect a n w Hn)|].
  intros [tmp|e] w1 [K F]; [|split; [exact K|intros ? [=]]].
  wp_step. split; [exact K|]. intros tmp' [= <-] k l Hin.
  apply dict_set_In in Hin as [[=]|Hin]. eapply (F tmp eq_refl); eauto.
Qed.

Lemma try_value_effect a var val n w :
  n <= length (store w) ->
  wp (try_value a var val) w (fun _ w' => search_kept n w w').
Proof.
  intros Hn. unfold try_value. wp_step.
  eapply wp_mono; [apply (assign_copy_effect a var val n w Hn)|].
  intros [tmp|e] w1 [K F]; [|exact K].
  wp_step. apply wp_reads; [auto with reads|]. intros [arcs|e]; [|exact K].
  wp_step. eapply wp_mono; [apply inference_effect|].
  intros r w2 R.
  assert (K2 : search_kept n w w2).
  { eapply search_kept_trans; [exact K|].
    eapply run_kept_search; [|exact R]. apply (F tmp eq_refl). }
  destruct r; [wp_step|]; exact K2.
Qed.

Lemma branch_loop_effect rec n0 (Hrec : forall a w, n0 <= length (store w) ->
    wp (rec a) w (fun _ w' => search_kept n0 w w')) n a var it k w :
  n0 <= length (store w) ->
  wp (branch_loop rec n a var it k) w (fun _ w' => search_kept n0 w w').
Proof.
  revert k w. induction n as [|n IH]; intros k w Hn; simpl.
  - wp_step. apply search_kept_refl.
  - wp_step. apply wp_reads; [auto with reads|].
    intros [[val|]|e]; try (try wp_step; apply search_kept_refl).
    wp_step. eapply wp_mono; [apply (try_value_effect a var val n0 w Hn)|].
    intros [[b tmp]|e] w1 K; [|exact K]. simpl.
    pose proof (search_length _ _ _ K) as L1.
    destruct b.
    + wp_step. eapply wp_mono; [apply (Hrec tmp w1); lia|].
      intros [result|e] w2 K2; [|eapply search_kept_trans; eauto].
      pose proof (search_length _ _ _ K2) as L2.
      assert (K3 : search_kept n0 w w2) by (eapply search_kept_trans; eauto).
      destruct (truthy result); [wp_step; exact K3|].
      eapply wp_mono; [apply (IH (S k) w2); lia|].
      intros ? w3 K4. eapply search_kept_trans; eauto.
    + eapply wp_mono; [apply (IH (S k) w1); lia|].
      intros ? w3 K4. eapply search_kept_trans; eauto.
Qed.

Lemma reads_all_decided items done : reads (all_decided items done).
Proof.
  revert done. induction items as [|[k o] items IH]; intros done; simpl.
  - auto with reads.
  - apply reads_bind; [auto with reads|]. intros n. apply IH.
Qed.

Lemma reads_min_loop a rest best best_key :
  reads (min_loop a rest best best_key).
Proof.
  revert best best_key. induction rest as [|v rest IH]; intros best bk; simpl.
  - auto with reads.
  - apply reads_bind; [auto with reads|]. intros k.
    destruct (key_lt k bk); apply IH.
Qed.

Lemma reads_select_unassigned_variable a :
  reads (select_unassigned_variable a).
Proof.
  unfold select_unassigned_variable. destruct (dict_keys a); [auto with reads|].
  apply reads_bind; [auto with reads|]. intros k. apply reads_min_loop.
Qed.

#[local] Hint Resolve reads_all_decided reads_select_unassigned_variable : reads.

Lemma count_backtrack_effect n w :
  wp count_backtrack w (fun _ w' => search_kept n w w').
Proof.
  unfold wp, count_backtrack, bind, get_self; simpl.
  split; simpl; auto. split; auto.
Qed.

Lemma count_failed_effect n w :
  wp count_failed w (fun _ w' => search_kept n w w').
Proof.
  unfold wp, count_failed, bind, get_self; simpl.
  split; simpl; auto. split; auto.
Qed.

Lemma backtrack_effect depth a n w :
  n <= length (store w) ->
  wp (backtrack depth a) w (fun _ w' => search_kept n w w').
Proof.
  revert a w. induction depth as [|depth IH]; intros a w Hn; cbn [backtrack].
  - wp_step. apply search_kept_refl.
  - wp_step. apply wp_reads; [auto with reads|].
    intros [[|]|e]; try (try wp_step; apply search_kept_refl).
    wp_step. eapply wp_mono; [apply (count_backtrack_effect n)|].
    intros [[]|e] w1 K1; [|exact K1].
    pose proof (search_length _ _ _ K1) as L1.
    wp_step. apply wp_reads; [auto with reads|]. intros [var|e]; [|exact K1].
    wp_step. apply wp_reads; [auto with reads|]. intros [it|e]; [|exact K1].
    wp_step. apply wp_reads; [auto with reads|]. intros [len|e]; [|exact K1].
    wp_step. eapply wp_mono; [apply (branch_loop_effect _ n IH); lia|].
    assert (K12 : forall w2, search_kept n w1 w2 -> search_kept n w w2).
    { intros w2 K2. eapply search_kept_trans; eauto. }
    intros [[r|]|e] w2 K2; [wp_step; auto| |auto].
    wp_step. eapply wp_mono; [apply (count_failed_effect n)|].
    intros [[]|e] w3 K3; try wp_step;
      (eapply search_kept_trans; [|exact K3]); auto.
Qed.


(** ** The bounds of the [for] loops are never reached *)

Lemma iter_next_run it k w :
  iter_next it k w =
  match contents (store w) it with
  | Ok items => (Ok (items !! k), w)
  | Raise e => (Raise e, w)
  end.
Proof.
  unfold iter_next, bind, get_store; simpl.
  destruct (contents (store w) it); reflexivity.
Qed.

Lemma enough_end it k w :
  enough it k 0 w ->
  exists items, contents (store w) it = Ok items /\ items !! k = None.
Proof.
  unfold enough. destruct (contents (store w) it) as [items|e]; [|lia].
  intros H. exists items. split; [reflexivity|].
  apply lookup_ge_None. lia.
Qed.

Lemma enough_next it k n w w' :
  (forall l, sublist (cell (store w') l) (cell (store w) l)) ->
  (exists items, contents (store w) it = Ok items) ->
  enough it k (S n) w -> enough it (S k) n w'.
Proof.
  intros Hsub [items Hc]. unfold enough. rewrite Hc.
  destruct it as [l|[s|z]]; simpl in *; try discriminate.
  - inversion Hc; subst items. specialize (Hsub l).
    apply sublist_length in Hsub. lia.
  - inversion Hc; subst items. lia.
Qed.

Lemma revise_loop_end n a i j it k revised w :
  enough it k 0 w -> revise_loop n a i j it k revised w = (Ok revised, w).
Proof.
  intros H. destruct (enough_end _ _ _ H) as [items [Hc Hk]].
  destruct n as [|n]; [reflexivity|]. simpl. unfold bind at 1.
  rewrite iter_next_run, Hc, Hk. reflexivity.
Qed.

Lemma revise_loop_fuel n m a i j it k revised w :
  dict_get a i = Some it ->
  enough it k n w -> enough it k m w ->
  revise_loop n a i j it k revised w = revise_loop m a i j it k revised w.
Proof.
  intros Hi. revert m k revised w.
  induction n as [|n IH]; intros m k revised w Hn Hm.
  - rewrite (revise_loop_end m); [reflexivity|exact Hn].
  - destruct m as [|m]; [apply revise_loop_end, Hm|].
    simpl. apply bind_ext. intros nx w1 E.
    rewrite iter_next_run in E.
    destruct (contents (store w) it) as [items|e] eqn:Hc; [|discriminate].
    inversion E; subst nx w1; clear E.
    destruct (items !! k) as [x|]; [|reflexivity].
    apply bind_ext. intros oj w1 E.
    apply reads_run in E; [subst w1|auto with reads].
    apply bind_ext. intros h w1 E.
    apply reads_run in E; [subst w1|auto with reads].
    apply bind_ext. intros ys w1 E.
    apply reads_run in E; [subst w1|auto with reads].
    apply bind_ext. intros cij w1 E.
    pose proof (wp_run _ _ _ _ _ (read_constraint_effect i j w) E) as [_ S1].
    assert (N1 : forall w2, (forall l, sublist (cell (store w2) l)
                                               (cell (store w1) l)) ->
                            enough it (S k) n w2 /\ enough it (S k) m w2).
    { intros w2 Hsub.
      split; (eapply enough_next; [|exists items; exact Hc|eassumption]);
        intros l; rewrite <- S1; apply Hsub. }
    destruct (length _ <? 1).
    + apply bind_ext. intros oi w2 E2.
      apply subscript_Ok in E2 as [Hoi ->].
      assert (oi = it) as -> by congruence.
      apply bind_ext. intros present w2 E2.
      apply reads_run in E2; [subst w2|auto with reads].
      apply bind_ext. intros u w2 E2.
      assert (Hsub : forall l, sublist (cell (store w2) l) (cell (store w1) l)).
      { destruct present.
        - pose proof (wp_run _ _ _ _ _ (py_remove_effect it x w1) E2)
            as [_ [K _]].
          apply (kept_sublist _ _ _ K).
        - inversion E2. reflexivity. }
      destruct (N1 w2 Hsub). apply IH; assumption.
    + destruct (N1 w1 (fun l => reflexivity _)). apply IH; assumption.
Qed.

Lemma search_kept_contents it w w' :
  allocated it w -> search_kept (length (store w)) w w' ->
  contents (store w') it = contents (store w) it /\ allocated it w'.
Proof.
  intros A [_ L O]. destruct it as [l|v]; simpl in *; [|auto].
  unfold cell. rewrite (O l A). split; [reflexivity|lia].
Qed.

Lemma enough_same it k n w w' :
  contents (store w') it = contents (store w) it ->
  (exists items, contents (store w) it = Ok items) ->
  enough it k (S n) w -> enough it (S k) n w'.
Proof.
  intros E [items Hc]. unfold enough. rewrite E, Hc. lia.
Qed.

Lemma branch_loop_end rec n a var it k w :
  enough it k 0 w -> branch_loop rec n a var it k w = (Ok None, w).
Proof.
  intros H. destruct (enough_end _ _ _ H) as [items [Hc Hk]].
  destruct n as [|n]; [reflexivity|]. simpl. unfold bind at 1.
  rewrite iter_next_run, Hc, Hk. reflexivity.
Qed.

Lemma branch_loop_fuel rec
    (Hrec : forall a w, wp (rec a) w
              (fun _ w' => search_kept (length (store w)) w w'))
    n m a var it k w :
  allocated it w -> enough it k n w -> enough it k m w ->
  branch_loop rec n a var it k w = branch_loop rec m a var it k w.
Proof.
  revert m k w. induction n as [|n IH]; intros m k w A Hn Hm.
  - rewrite (branch_loop_end rec m); [reflexivity|exact Hn].
  - destruct m as [|m]; [apply branch_loop_end, Hm|].
    simpl. apply bind_ext. intros nx w1 E.
    rewrite iter_next_run in E.
    destruct (contents (store w) it) as [items|e] eqn:Hc; [|discriminate].
    inversion E; subst nx w1; clear E.
    destruct (items !! k) as [val|]; [|reflexivity].
    apply bind_ext. intros t w1 E1.
    pose proof (wp_run _ _ _ _ _
      (try_value_effect a var val (length (store w)) w (le_n _)) E1) as K1.
    destruct (search_kept_contents it w w1 A K1) as [C1 A1].
    assert (N1 : enough it (S k) n w1 /\ enough it (S k) m w1).
    { split; (apply (enough_same it k _ w w1);
              [exact C1|exists items; exact Hc|assumption]). }
    destruct (fst t).
    + apply bind_ext. intros result w2 E2.
      pose proof (wp_run _ _ _ _ _ (Hrec (snd t) w1) E2) as K2.
      destruct (search_kept_contents it w1 w2 A1 K2) as [C2 A2].
      destruct (truthy result); [reflexivity|].
      apply IH; [exact A2| |];
        (apply (enough_same it k _ w w2);
         [congruence|exists items; exact Hc|assumption]).
    + destruct N1. apply IH; assumption.
Qed.

(** The loop of [backtrack] over the values of the selected variable does
    not depend on its bound, once the bound exceeds the length of the
    list. *)
Lemma backtrack_loop_fuel depth n m a var it w :
  allocated it w -> enough it 0 n w -> enough it 0 m w ->
  branch_loop (backtrack depth) n a var it 0 w
  = branch_loop (backtrack depth) m a var it 0 w.
Proof.
  apply branch_loop_fuel. intros a' w'. apply backtrack_effect. lia.
Qed.

(** ** What a successful search returns *)

Lemma all_decided_true items done w w' :
  all_decided items done w = (Ok true, w') ->
  done = true /\ w' = w /\
  forall k o, In (k, o) items -> py_len o w = (Ok 1, w).
Proof.
  revert done. induction items as [|[k o] items IH]; intros done; simpl.
  - intros [= -> ->]. repeat split. intros k o [].
  - intros H. apply bind_Ok_inv in H as [n [w1 [E H]]].
    pose proof (reads_run _ _ _ _ (reads_py_len o) E) as ->.
    destruct (IH _ H) as [Hd [-> Hall]].
    destruct (n =? 1) eqn:En; [|discriminate].
    apply Nat.eqb_eq in En. subst n.
    repeat split; [exact Hd|]. intros k' o' [[= <- <-]|Hin]; eauto.
Qed.

Lemma branch_loop_returns rec (P : dict obj -> world -> Prop)
    (Hrec : forall a w r w', rec a w = (Ok (Some r), w') -> P r w')
    n a var it k w r w' :
  branch_loop rec n a var it k w = (Ok (Some r), w') -> P r w'.
Proof.
  revert k w. induction n as [|n IH]; intros k w; simpl; [discriminate|].
  intros H. apply bind_Ok_inv in H as [nx [w1 [_ H]]].
  destruct nx as [val|]; [|discriminate].
  apply bind_Ok_inv in H as [t [w2 [_ H]]].
  destruct (fst t); [|eapply IH; eauto].
  apply bind_Ok_inv in H as [result [w3 [E H]]].
  destruct (truthy result); [|eapply IH; eauto].
  inversion H; subst. eapply Hrec; eauto.
Qed.

(** An assignment that [backtrack] returns is complete: every variable is
    mapped to a sequence of length one, a list of one item or a string of
    one character. *)
Lemma backtrack_returns_decided depth a w r w' :
  backtrack depth a w = (Ok (Some r), w') ->
  forall k o, In (k, o) r -> py_len o w' = (Ok 1, w').
Proof.
  revert a w r w'.
  induction depth as [|depth IH]; intros a w r w'; cbn [backtrack];
    [discriminate|].
  intros H. apply bind_Ok_inv in H as [done [w1 [E H]]].
  destruct done.
  - apply all_decided_true in E as [_ [-> Hall]].
    inversion H; subst. exact Hall.
  - apply bind_Ok_inv in H as [u [w2 [_ H]]].
    apply bind_Ok_inv in H as [var [w3 [_ H]]].
    apply bind_Ok_inv in H as [it [w4 [_ H]]].
    apply bind_Ok_inv in H as [n [w5 [_ H]]].
    apply bind_Ok_inv in H as [result [w6 [E6 H]]].
    destruct result as [r'|].
    + inversion H; subst.
      apply (branch_loop_returns (backtrack depth)
               (fun r w' => forall k o, In (k, o) r -> py_len o w' = (Ok 1, w'))
               IH _ _ _ _ _ _ _ _ E6).
    + apply bind_Ok_inv in H as [u' [w7 [_ H]]]. discriminate.
Qed.

(** ** The frame of [inference] *)





(** ** The solver on the example graphs *)

(** On digits the search succeeds: the decided cell holds the bare
    character, the other cell the list that AC-3 pruned. *)
Example backtracking_search_two_cells :
  let (r, w) := backtracking_search 1000 two_cells in
  exists a, r = Ok (Some a) /\
            show (store w) a = [("0-0"%string, SVal (VStr "1"));
                                ("0-1"%string, SList [VStr "2"])] /\
            backtracks (self w) = 1 /\ failed (self w) = 0.
Proof. vm_compute. eexists. repeat split. Qed.

(** C1: two neighbouring regions with the colours red and green have a
    valid colouring, and [backtracking_search] on that graph raises
    [AttributeError] instead of returning one: the first candidate value is
    stored as the string "red", which [revise] iterates letter by letter and
    from which it then calls [remove]. *)
Theorem backtracking_search_two_regions_raises :
  solutionb two_regions [("X"%string, red); ("Y"%string, green)] = true /\
  forall depth,
    fst (backtracking_search (S depth) two_regions) = Raise AttributeError.
Proof. split; [reflexivity|]. intros depth. vm_compute. reflexivity. Qed.

(** C4: [create_map_coloring_csp] builds a graph that has a proper
    colouring, and [backtracking_search] on it raises [AttributeError]
    after one call of [backtrack], without returning an assignment. *)
Theorem backtracking_search_map_coloring_raises :
  fst (create_map_coloring_csp world_init) = Ok tt /\
  solutionb map_coloring
    [("WA", red); ("NT", green); ("Q", red); ("NSW", green);
     ("V", red); ("SA", blue); ("T", red)]%string = true /\
  forall depth,
    let (r, w) := backtracking_search (S depth) map_coloring in
    r = Raise AttributeError /\ backtracks (self w) = 1.
Proof.
  split; [reflexivity|]. split; [vm_compute; reflexivity|].
  intros depth. vm_compute. split; reflexivity.
Qed.

(** C3: the branch step on the first candidate of X in the graph of two
    regions. The copy is a new dictionary with new lists, and under X it
    holds the string "red" itself, of length 3, not the list ["red"]. *)
Theorem assign_copy_stores_bare_value :
  let (a, w) := copied two_regions in
  let (r, w') := assign_copy a "X" red w in
  exists tmp,
    r = Ok tmp /\
    show (store w') a = [("X"%string, SList [red; green]);
                         ("Y"%string, SList [red; green])] /\
    show (store w') tmp = [("X"%string, SVal red);
                           ("Y"%string, SList [red; green])] /\
    dict_get tmp "X" <> dict_get a "X" /\
    dict_get tmp "Y" <> dict_get a "Y" /\
    fst (py_len (OVal red) w') = Ok 3.
Proof.
  vm_compute. eexists. repeat split; discriminate.
Qed.

Ltac split_colour v :=
  let E1 := fresh "E" in
  let E2 := fresh "E" in
  destruct (value_eqb v (VStr "red")) eqn:E1;
  [apply value_eqb_eq in E1; subst v
  |destruct (value_eqb v (VStr "green")) eqn:E2;
   [apply value_eqb_eq in E2; subst v|]].

Lemma triangle_has_no_solution s : solutionb triangle s = false.
Proof.
  unfold solutionb. set (w := triangle). vm_compute in w. subst w. simpl.
  destruct (dict_get s "X") as [x|]; [split_colour x|]; try reflexivity;
  (destruct (dict_get s "Y") as [y|]; [split_colour y|]; try reflexivity);
  (destruct (dict_get s "Z") as [z|]; [split_colour z|]; reflexivity).
Qed.

(** C2: three mutually adjacent regions cannot be coloured with two
    colours, and [backtracking_search] on that graph raises
    [AttributeError] instead of returning [None]. *)
Theorem backtracking_search_triangle_raises :
  (forall s, solutionb triangle s = false) /\
  forall depth,
    fst (backtracking_search (S depth) triangle) = Raise AttributeError.
Proof.
  split; [apply triangle_has_no_solution|].
  intros depth. vm_compute. reflexivity.
Qed.

(** C5: [revise] on the arc (i, j) of the graph where i must equal j, with
    i in [a, b, c] and j in [c]: "a" is removed, the loop then reads
    position 1 of the shortened list and so never tests "b", which stays
    in the domain of i although no value of j goes with it. *)
Theorem revise_skips_after_removal :
  let (a, w) := copied equal_pair in
  let (r, w') := revise a "i" "j" w in
  r = Ok true /\
  show (store w) a = [("i"%string, SList [VStr "a"; VStr "b"; VStr "c"]);
                      ("j"%string, SList [VStr "c"])] /\
  show (store w') a = [("i"%string, SList [VStr "b"; VStr "c"]);
                       ("j"%string, SList [VStr "c"])] /\
  (forall y, In y [VStr "c"] -> value_eqb (VStr "b") y = false).
Proof.
  vm_compute. repeat split. intros y [<-|[]]. reflexivity.
Qed.

(** C7: on the same graph a first run of [inference] over all arcs returns
    [True] and leaves "b" in the domain of i; a second run over all arcs
    removes it. *)
Theorem inference_second_run_removes :
  let (a, w) := copied equal_pair in
  let run := (let* arcs := get_all_arcs in inference_fresh a arcs) in
  let (r1, w1) := run w in
  let (r2, w2) := run w1 in
  r1 = Ok true /\ r2 = Ok true /\
  show (store w1) a = [("i"%string, SList [VStr "b"; VStr "c"]);
                       ("j"%string, SList [VStr "c"])] /\
  show (store w2) a = [("i"%string, SList [VStr "c"]);
                       ("j"%string, SList [VStr "c"])].
Proof. vm_compute. repeat split. Qed.

(** C8, as stated, fails on a constraint registered one way: (A, B) is
    registered, and the arcs returned for B do not include it, while the
    arcs returned for A include (B, A), which is not registered. *)
(** ** Instances of the general theorems, and counterexamples *)

Lemma get_all_neighboring_arcs_not_incoming :
  registered (self one_way) "A" "B" /\
  ~ registered (self one_way) "B" "A" /\
  get_all_neighboring_arcs "B" one_way = (Ok [], one_way) /\
  get_all_neighboring_arcs "A" one_way = (Ok [("B", "A")]%string, one_way).
Proof.
  split; [|split; [|split; reflexivity]].
  - do 2 eexists. split; reflexivity.
  - intros [ci [p [H1 H2]]]. vm_compute in H1. inversion H1; subst ci.
    discriminate H2.
Qed.

(** On the graph of two regions the arcs returned for X are [(Y, X)], and
    (X, Y) is registered. *)
Lemma get_all_neighboring_arcs_outgoing_witness :
  get_all_neighboring_arcs "X" two_regions
  = (Ok [("Y", "X")]%string, two_regions) /\
  (In ("Y", "X")%string [("Y", "X")]%string <->
   "X"%string = "X"%string /\ registered (self two_regions) "X" "Y").
Proof.
  split; [reflexivity|].
  exact (proj1 (proj2 (proj2
    (get_all_neighboring_arcs_outgoing two_regions "X" _ _ eq_refl)))
    "Y"%string "X"%string).
Defined.

(** After [add_variable("A", ...)] alone, a constraint from A to the
    undeclared B raises [KeyError]. *)
Lemma add_constraint_one_way_undeclared_witness :
  add_constraint_one_way "A" "B" not_equal
    (snd (add_variable "A" [red; green] world_init))
  = (Raise KeyError, snd (add_variable "A" [red; green] world_init)).
Proof.
  apply add_constraint_one_way_undeclared.
  - apply built_add_variable, built_init.
  - right. intros [H|[]]. discriminate H.
Defined.

(** With E empty and B, C arc-consistent with each other, [inference] over
    the two arcs returns [True]. *)
Lemma inference_empty_domain_on_entry_witness :
  let (a, w) := copied with_empty in
  show (store w) a = [("E"%string, SList []);
                      ("B"%string, SList [VStr "1"; VStr "2"]);
                      ("C"%string, SList [VStr "1"; VStr "2"])] /\
  inference a [("B", "C"); ("C", "B")]%string w = (Ok true, w, []).
Proof.
  set (c := copied with_empty). vm_compute in c. subst c. cbv iota beta.
  split; [reflexivity|].
  refine (proj1 (proj2 (inference_empty_domain_on_entry _ _ _ "E" 3 _ _) _)).
  - reflexivity.
  - reflexivity.
  - intros i j [E|[E|[]]]; inversion E; subst; vm_compute; reflexivity.
Defined.



(** On a graph whose constraints are still the [filter] objects that
    [add_constraint_one_way] stores, the first revision of an arc reads its
    constraint to the end, and [inference] hands back a graph whose
    constraints are exhausted. *)
Lemma inference_exhausts_filter_objects :
  let (a, w) := copied equal_pair_lazy in
  let w' := snd ((let* arcs := get_all_arcs in inference_fresh a arcs) w) in
  constraints (self w) =
    [("i", [("j", PIter [(VStr "c", VStr "c")])]);
     ("j", [("i", PIter [(VStr "c", VStr "c")])])]%string /\
  constraints (self w') =
    [("i", [("j", PIter [])]); ("j", [("i", PIter [])])]%string.
Proof. vm_compute. split; reflexivity. Qed.

(** * Further properties of the solver *)

(** ** [revise] *)

Lemma pair_eqb_eq p q : pair_eqb p q = true <-> p = q.
Proof.
  destruct p as [a b], q as [c d]. unfold pair_eqb. simpl.
  rewrite andb_true_iff, !value_eqb_eq. split.
  - intros [-> ->]. reflexivity.
  - intros [= -> ->]. auto.
Qed.

(** The test of [revise] on [x] fails exactly when [x] has a partner. *)
Lemma support_test cij ys x :
  (length (List.filter
             (fun arc => existsb (pair_eqb arc) (get_all_possible_pairs [x] ys))
             cij) <? 1) = false
  <-> has_support cij ys x.
Proof.
  unfold has_support, get_all_possible_pairs. rewrite Nat.ltb_ge. split.
  - intros H.
    destruct (List.filter _ cij) as [|arc rest] eqn:E; [simpl in H; lia|].
    assert (Hin : In arc (List.filter
      (fun arc => existsb (pair_eqb arc) (list_prod [x] ys)) cij))
      by (rewrite E; left; reflexivity).
    apply filter_In in Hin as [Hc Hx].
    apply existsb_exists in Hx as [[x' y] [Hp He]].
    apply pair_eqb_eq in He. subst arc.
    apply in_prod_iff in Hp as [[<-|[]] Hy]. eauto.
  - intros [y [Hy Hc]].
    assert (Hin : In (x, y) (List.filter
      (fun arc => existsb (pair_eqb arc) (list_prod [x] ys)) cij)).
    { apply filter_In. split; [exact Hc|].
      apply existsb_exists. exists (x, y). split.
      - apply in_prod_iff. split; [left; reflexivity|exact Hy].
      - apply pair_eqb_eq. reflexivity. }
    destruct (List.filter _ cij); [destruct Hin|simpl; lia].
Qed.

Lemma read_constraint_list i j w ci cij :
  dict_get (constraints (self w)) i = Some ci ->
  dict_get ci j = Some (PList cij) ->
  read_constraint i j w = (Ok cij, w).
Proof.
  intros Hi Hj. unfold read_constraint, bind, get_self, subscript; simpl.
  rewrite Hi. simpl. rewrite Hj. reflexivity.
Qed.

Lemma remove_first_In x0 x (l : list value) :
  In x l -> x = x0 \/ In x (remove_first x0 l).
Proof.
  induction l as [|y l IH]; simpl; [tauto|].
  destruct (value_eqb y x0) eqn:E.
  - apply value_eqb_eq in E. subst y. intros [->|H]; auto.
  - intros [->|H]; [right; left; reflexivity|].
    destruct (IH H); auto. right. right. assumption.
Qed.

Lemma revise_loop_false n a i j it k revised w w' :
  revise_loop n a i j it k revised w = (Ok false, w') ->
  revised = false /\ store w' = store w.
Proof.
  revert k revised w. induction n as [|n IH]; intros k revised w; simpl.
  - intros [= -> ->]. auto.
  - intros H. apply bind_Ok_inv in H as [nx [w1 [E H]]].
    pose proof (reads_run _ _ _ _ (reads_iter_next it k) E) as ->.
    destruct nx as [x|]; [|inversion H; auto].
    apply bind_Ok_inv in H as [oj [w1 [E1 H]]].
    apply reads_run in E1; [subst w1|auto with reads].
    apply bind_Ok_inv in H as [h [w1 [E1 H]]].
    apply reads_run in E1; [subst w1|auto with reads].
    apply bind_Ok_inv in H as [ys [w1 [E1 H]]].
    apply reads_run in E1; [subst w1|auto with reads].
    apply bind_Ok_inv in H as [cij [w1 [E1 H]]].
    pose proof (wp_run _ _ _ _ _ (read_constraint_effect i j w) E1) as [_ S1].
    destruct (length _ <? 1).
    + apply bind_Ok_inv in H as [oi [w2 [_ H]]].
      apply bind_Ok_inv in H as [present [w3 [_ H]]].
      apply bind_Ok_inv in H as [u [w4 [_ H]]].
      apply IH in H as [[=] _].
    + apply IH in H as [-> S2]. split; [reflexivity|congruence].
Qed.

Lemma revise_false_unchanged a i j w w' :
  revise a i j w = (Ok false, w') -> store w' = store w.
Proof.
  unfold revise. intros H.
  apply bind_Ok_inv in H as [it [w1 [E1 H]]].
  apply reads_run in E1; [subst w1|auto with reads].
  apply bind_Ok_inv in H as [n [w1 [E1 H]]].
  apply reads_run in E1; [subst w1|auto with reads].
  apply revise_loop_false in H as [_ H]. exact H.
Qed.

Lemma bind_run {A B} (m : M A) (k : A -> M B) w a w1 :
  m w = (Ok a, w1) -> bind m k w = k a w1.
Proof. unfold bind. intros ->. reflexivity. Qed.

Lemma subscript_run {V} (d : dict V) k v w :
  dict_get d k = Some v -> subscript d k w = (Ok v, w).
Proof. unfold subscript. intros ->. reflexivity. Qed.

Lemma contents_insert_other (h : heap) l c oj :
  oj <> ORef l -> contents (<[l := c]> h) oj = contents h oj.
Proof.
  intros Hne. destruct oj as [l2|v]; [|reflexivity]. simpl.
  rewrite cell_insert. destruct (decide _) as [[-> _]|_]; [congruence|reflexivity].
Qed.

Lemma py_remove_run l x w :
  In x (cell (store w) l) ->
  py_remove (ORef l) x w
  = (Ok tt, {| self := self w;
               store := <[l := remove_first x (cell (store w) l)]> (store w) |}).
Proof.
  intros Hx. apply existsb_value_eqb in Hx.
  unfold py_remove, bind, get_store; simpl. rewrite Hx. reflexivity.
Qed.

Lemma revise_loop_sound n a i j l oj ci cij ys k revised w r w' :
  dict_get a i = Some (ORef l) -> dict_get a j = Some oj -> oj <> ORef l ->
  dict_get (constraints (self w)) i = Some ci ->
  dict_get ci j = Some (PList cij) ->
  contents (store w) oj = Ok ys ->
  revise_loop n a i j (ORef l) k revised w = (r, w') ->
  (exists b, r = Ok b) /\ self w' = self w /\
  length (store w') = length (store w) /\
  (forall l', l' <> l -> store w' !! l' = store w !! l') /\
  (forall x, In x (cell (store w) l) ->
             In x (cell (store w') l) \/ ~ has_support cij ys x).
Proof.
  intros Hi Hj Hne. revert k revised w.
  induction n as [|n IH]; intros k revised w Hci Hcij Hys; simpl.
  - intros [= <- <-]. repeat split; eauto.
  - rewrite (bind_run _ _ w _ _ (iter_next_run (ORef l) k w)). simpl.
    destruct (cell (store w) l !! k) as [x|] eqn:Ek;
      [|intros [= <- <-]; repeat split; eauto].
    rewrite (bind_run _ _ w _ _ (subscript_run a j oj w Hj)).
    rewrite (bind_run get_store _ w (store w) w eq_refl).
    rewrite Hys.
    rewrite (bind_run (lift (Ok ys)) _ w ys w eq_refl).
    rewrite (bind_run _ _ w _ _ (read_constraint_list i j w ci cij Hci Hcij)).
    destruct (length _ <? 1) eqn:T.
    + rewrite (bind_run _ _ w _ _ (subscript_run a i _ w Hi)).
      rewrite (bind_run _ _ w _ _
                 (py_contains_item (store w) (ORef l) _ k x w
                    eq_refl eq_refl Ek)).
      assert (Hx : In x (cell (store w) l)).
      { apply list_elem_of_In. eapply list_elem_of_lookup_2. exact Ek. }
      assert (Hl : l < length (store w)).
      { unfold cell in Hx. destruct (store w !! l) eqn:E; [|destruct Hx].
        apply lookup_lt_Some in E. exact E. }
      cbv iota.
      rewrite (bind_run (py_remove (ORef l) x) _ w _ _
                 (py_remove_run l x w Hx)).
      set (w2 := {| self := self w;
                    store := <[l := remove_first x (cell (store w) l)]>
                               (store w) |}).
      intros H. apply IH in H; [|exact Hci|exact Hcij|].
      * destruct H as [Hb [Hs [Hlen [Ho Hin]]]]. simpl in *.
        rewrite length_insert in Hlen.
        split; [exact Hb|]. split; [exact Hs|]. split; [exact Hlen|]. split.
        -- intros l' Hl'. rewrite (Ho l' Hl').
           apply list_lookup_insert_ne. congruence.
        -- intros x' Hx'. rewrite cell_insert in Hin.
           destruct (decide _) as [_|Hn]; [|tauto].
           destruct (remove_first_In x x' _ Hx') as [->|Hr].
           ++ right. intros Hsup. apply support_test in Hsup.
              discriminate (eq_trans (eq_sym T) Hsup).
           ++ apply Hin, Hr.
      * simpl. rewrite contents_insert_other; assumption.
    + apply IH; assumption.
Qed.

(** X1: on an arc (i, j) whose constraint is stored as a list, with the
    domain of [i] a list that is not also the domain of [j], [revise] does
    not raise; it changes nothing but the list of [i], which becomes a
    sublist of what it was; it returns [False] exactly when that list is
    unchanged; and every value that has disappeared from the list had no
    partner in the domain of [j]. *)
Theorem revise_removes_only_unsupported a i j l oj ci cij ys w r w' :
  dict_get a i = Some (ORef l) -> dict_get a j = Some oj -> oj <> ORef l ->
  dict_get (constraints (self w)) i = Some ci ->
  dict_get ci j = Some (PList cij) ->
  contents (store w) oj = Ok ys ->
  revise a i j w = (r, w') ->
  (exists b, r = Ok b /\ (b = false <-> store w' = store w)) /\
  self w' = self w /\
  (forall l', l' <> l -> store w' !! l' = store w !! l') /\
  sublist (cell (store w') l) (cell (store w) l) /\
  (forall x, In x (cell (store w) l) -> ~ In x (cell (store w') l) ->
             ~ has_support cij ys x).
Proof.
  intros Hi Hj Hne Hci Hcij Hys H.
  pose proof (wp_run _ _ _ _ _ (revise_effect a i j w) H) as [K [_ S]].
  specialize (K _ Hi). destruct K as [_ _ [_ _ Hsub _]].
  unfold revise in H.
  rewrite (bind_run _ _ w _ _ (subscript_run a i _ w Hi)) in H.
  rewrite (bind_run (py_len (ORef l)) _ w (length (cell (store w) l)) w eq_refl)
    in H.
  pose proof H as H0.
  apply (revise_loop_sound _ _ _ _ _ _ _ _ _ _ _ _ _ _ Hi Hj Hne Hci Hcij Hys)
    in H as [[b ->] [Hs [_ [Ho Hin]]]].
  split; [|split; [exact Hs|split; [exact Ho|split; [apply Hsub|]]]].
  - exists b. split; [reflexivity|]. split.
    + intros ->. apply revise_loop_false in H0 as [_ E]. exact E.
    + intros E. destruct b; [|reflexivity].
      destruct (S eq_refl) as [it [_ [Hlt _]]]. rewrite E in Hlt. lia.
  - intros x Hx Hnx. destruct (Hin x Hx); tauto.
Qed.

(** On the arc (i, j) of the equal pair, "a" is dropped from the domain of
    i, and "a" has no partner in the domain of j. *)
Lemma revise_removes_only_unsupported_witness :
  ~ has_support [(VStr "c", VStr "c")] [VStr "c"] (VStr "a").
Proof.
  refine (proj2 (proj2 (proj2 (proj2
    (revise_removes_only_unsupported equal_pair_copy "i" "j" 2 (ORef 3)
       [("j"%string, PList [(VStr "c", VStr "c")])] [(VStr "c", VStr "c")]
       [VStr "c"] equal_pair_world
       (fst (revise equal_pair_copy "i" "j" equal_pair_world))
       (snd (revise equal_pair_copy "i" "j" equal_pair_world))
       _ _ _ _ _ _ _)))) (VStr "a") _ _).
  - reflexivity.
  - reflexivity.
  - discriminate.
  - reflexivity.
  - reflexivity.
  - reflexivity.
  - apply surjective_pairing.
  - vm_compute. left. reflexivity.
  - vm_compute. intros [H|[H|[]]]; discriminate H.
Defined.

(** ** [inference] *)

(** X2: the loop of [inference] ends. Every iteration either removes an
    item from a list of the heap or shortens the queue without adding to
    it, and a revision adds at most as many arcs as the graph has; so
    [store_size * (arc_count + 1) + len(queue)] iterations are enough, and
    no larger bound changes the result. *)
Theorem inference_terminates f1 f2 a q w :
  potential w q <= f1 -> potential w q <= f2 ->
  inference_loop f1 a q w = inference_loop f2 a q w.
Proof. apply inference_loop_fuel. Qed.

Lemma inference_terminates_witness :
  inference_loop 100 equal_pair_copy [("i", "j"); ("j", "i")]%string
                 equal_pair_world
  = inference_loop 1000 equal_pair_copy [("i", "j"); ("j", "i")]%string
                   equal_pair_world.
Proof.
  apply inference_terminates; vm_compute; lia.
Defined.

Lemma inference_loop_nonempty fuel a q w w' :
  fst (inference_loop fuel a q w) = (Ok true, w') ->
  forall l, cell (store w) l <> [] -> cell (store w') l <> [].
Proof.
  revert q w. induction fuel as [|fuel IH]; intros [|[i j] q] w;
    cbn [inference_loop fst]; try (intros [= <-]; auto).
  destruct (inference_body a i j w) as [[[added|]|e] w1] eqn:E;
    cbn [fst]; try discriminate.
  intros H l Hl. apply (IH _ _ H).
  apply inference_body_Some in E
    as [[ER _]|[ER [oi [n [arcs [Hoi [E3 _]]]]]]].
  - rewrite (revise_false_unchanged _ _ _ _ _ ER). exact Hl.
  - destruct (wp_run _ _ _ _ _ (revise_effect a i j w) ER) as [K [_ S]].
    specialize (K _ Hoi). destruct K as [_ _ [_ _ _ Ho]].
    destruct (S eq_refl) as [it [Hit [_ [l0 [-> _]]]]].
    assert (oi = ORef l0) as -> by congruence.
    destruct (decide (l = l0)) as [->|Hne].
    + apply py_len_ref in E3. intros El. rewrite El in E3. discriminate.
    + unfold cell in *. rewrite (Ho l); [exact Hl|congruence].
Qed.

(** X3: when [inference] returns [True], no list that had an item before
    the call is empty after it: a domain is never emptied silently. *)
Theorem inference_true_keeps_nonempty a q w w' l :
  fst (inference a q w) = (Ok true, w') ->
  cell (store w) l <> [] -> cell (store w') l <> [].
Proof. intros H. apply (inference_loop_nonempty _ _ _ _ _ H). Qed.

Lemma inference_true_keeps_nonempty_witness :
  cell (store (snd (fst (inference equal_pair_copy
                                   [("i", "j"); ("j", "i")]%string
                                   equal_pair_world)))) 2 <> [].
Proof.
  refine (inference_true_keeps_nonempty equal_pair_copy
            [("i", "j"); ("j", "i")]%string equal_pair_world
            (snd (fst (inference equal_pair_copy
                                 [("i", "j"); ("j", "i")]%string
                                 equal_pair_world))) 2 _ _).
  - vm_compute. reflexivity.
  - vm_compute. discriminate.
Defined.

(** ** [select_unassigned_variable] *)

Lemma key_lt_trans a b c : key_lt a b = true -> key_lt b c = true -> key_lt a c = true.
Proof.
  destruct a, b, c; simpl; try discriminate; auto.
  rewrite !Nat.ltb_lt. lia.
Qed.

Lemma key_lt_le_trans a b c :
  key_lt a b = true -> key_lt c b = false -> key_lt a c = true.
Proof.
  destruct a, b, c; simpl; try discriminate; auto.
  rewrite Nat.ltb_lt, Nat.ltb_ge, Nat.ltb_lt. lia.
Qed.

Lemma min_loop_spec a rest : forall best bk w var w' pre mid,
  remaining_key a best w = (Ok bk, w) ->
  (forall v, In v pre -> exists k', remaining_key a v w = (Ok k', w) /\
                                    key_lt bk k' = true) ->
  (forall v, In v mid -> exists k', remaining_key a v w = (Ok k', w) /\
                                    key_lt k' bk = false) ->
  min_loop a rest best bk w = (Ok var, w') ->
  w' = w /\
  exists pre' post' kv,
    pre ++ best :: mid ++ rest = pre' ++ var :: post' /\
    remaining_key a var w = (Ok kv, w) /\
    (forall v, In v pre' -> exists k', remaining_key a v w = (Ok k', w) /\
                                       key_lt kv k' = true) /\
    (forall v, In v post' -> exists k', remaining_key a v w = (Ok k', w) /\
                                        key_lt k' kv = false).
Proof.
  induction rest as [|v rest IH]; intros best bk w var w' pre mid Hb Hpre Hmid;
    simpl.
  - intros [= <- <-]. split; [reflexivity|].
    exists pre, mid, bk. rewrite app_nil_r. auto.
  - intros H. apply bind_Ok_inv in H as [k [w1 [E H]]].
    pose proof (reads_run _ _ _ _ (reads_remaining_key a v) E) as ->.
    destruct (key_lt k bk) eqn:Hlt.
    + apply (IH v k w var w' (pre ++ best :: mid) []) in H; auto.
      * destruct H as [-> [pre' [post' [kv [Heq R]]]]]. split; [reflexivity|].
        exists pre', post', kv. split; [|exact R].
        rewrite <- Heq. rewrite <- app_assoc. reflexivity.
      * intros u Hu. apply in_app_iff in Hu as [Hu|[<-|Hu]].
        -- destruct (Hpre u Hu) as [k' [E' L]]. exists k'. split; [exact E'|].
           eapply key_lt_trans; eauto.
        -- exists bk. auto.
        -- destruct (Hmid u Hu) as [k' [E' L]]. exists k'. split; [exact E'|].
           eapply key_lt_le_trans; eauto.
      * intros u [].
    + apply (IH best bk w var w' pre (mid ++ [v])) in H; auto.
      * destruct H as [-> [pre' [post' [kv [Heq R]]]]]. split; [reflexivity|].
        exists pre', post', kv. split; [|exact R].
        rewrite <- Heq. rewrite <- app_assoc. reflexivity.
      * intros u Hu. apply in_app_iff in Hu as [Hu|[<-|[]]]; eauto.
Qed.

(** X4: [select_unassigned_variable] only reads. The name it returns is a
    key of the assignment whose sort key (the number of values when there
    are two or more, infinity otherwise) is strictly smaller than that of
    every earlier key and no larger than that of every later key: the
    first of the variables with the fewest remaining values. It returns a
    variable with fewer than two values only when every variable has fewer
    than two values. *)
Theorem select_unassigned_variable_minimum a w var w' :
  select_unassigned_variable a w = (Ok var, w') ->
  w' = w /\
  exists pre post kv,
    dict_keys a = pre ++ var :: post /\
    remaining_key a var w = (Ok kv, w) /\
    (forall v, In v pre -> exists k', remaining_key a v w = (Ok k', w) /\
                                      key_lt kv k' = true) /\
    (forall v, In v post -> exists k', remaining_key a v w = (Ok k', w) /\
                                       key_lt k' kv = false) /\
    (kv = None ->
     forall v, In v (dict_keys a) -> remaining_key a v w = (Ok None, w)).
Proof.
  unfold select_unassigned_variable.
  destruct (dict_keys a) as [|v rest] eqn:Hk; [discriminate|].
  intros H. apply bind_Ok_inv in H as [k [w1 [E H]]].
  pose proof (reads_run _ _ _ _ (reads_remaining_key a v) E) as ->.
  apply (min_loop_spec a rest v k w var w' [] []) in H; auto;
    try (intros u []).
  destruct H as [-> [pre [post [kv [Heq [Hv [Hpre Hpost]]]]]]].
  split; [reflexivity|]. exists pre, post, kv. simpl in Heq.
  split; [exact Heq|]. split; [exact Hv|]. split; [exact Hpre|].
  split; [exact Hpost|].
  intros -> u Hu. rewrite Heq in Hu.
  apply in_app_iff in Hu as [Hu|[<-|Hu]].
  - destruct (Hpre u Hu) as [k' [_ L]]. discriminate L.
  - exact Hv.
  - destruct (Hpost u Hu) as [[n|] [E' L]]; [discriminate L|exact E'].
Qed.

(** In the copy of the equal pair, i has three values and j one: i is
    selected. *)
Lemma select_unassigned_variable_minimum_witness :
  exists pre post kv,
    dict_keys equal_pair_copy = pre ++ "i"%string :: post /\
    remaining_key equal_pair_copy "i" equal_pair_world
    = (Ok kv, equal_pair_world) /\
    (forall v, In v pre ->
       exists k', remaining_key equal_pair_copy v equal_pair_world
                  = (Ok k', equal_pair_world) /\ key_lt kv k' = true) /\
    (forall v, In v post ->
       exists k', remaining_key equal_pair_copy v equal_pair_world
                  = (Ok k', equal_pair_world) /\ key_lt k' kv = false) /\
    (kv = None ->
     forall v, In v (dict_keys equal_pair_copy) ->
       remaining_key equal_pair_copy v equal_pair_world
       = (Ok None, equal_pair_world)).
Proof.
  refine (proj2 (select_unassigned_variable_minimum equal_pair_copy
                   equal_pair_world "i" equal_pair_world _)).
  vm_compute. reflexivity.
Defined.

(** ** [copy.deepcopy] *)

Lemma cell_app_l (h ext : heap) l : l < length h -> cell (h ++ ext) l = cell h l.
Proof. intros H. unfold cell. rewrite lookup_app_l; auto. Qed.

Lemma cell_app_new (h : heap) c : cell (h ++ [c]) (length h) = c.
Proof.
  unfold cell. rewrite lookup_app_r by lia. rewrite Nat.sub_diag. reflexivity.
Qed.

Lemma show_cons_ref (h : heap) k l d :
  show h ((k, ORef l) :: d) = (k, SList (cell h l)) :: show h d.
Proof. reflexivity. Qed.

Lemma deepcopy_items_copies (h0 : heap) d : forall memo w ext,
  store w = h0 ++ ext ->
  (forall k l, In (k, ORef l) d -> l < length h0) ->
  (forall l0 l', memo_get memo l0 = Some l' ->
     length h0 <= l' < length (store w) /\ cell (store w) l' = cell h0 l0) ->
  exists d' ext',
    deepcopy_items d memo w
    = (Ok d', {| self := self w; store := store w ++ ext' |}) /\
    dict_keys d' = dict_keys d /\
    show (store w ++ ext') d' = show h0 d /\
    fresh d' (length h0) /\
    (forall k l, In (k, ORef l) d' -> l < length (store w ++ ext')).
Proof.
  induction d as [|[k [l|v]] d IH]; intros memo w ext Hw Hd Hm; simpl.
  - exists [], []. rewrite app_nil_r. destruct w; simpl.
    repeat split; intros k l [].
  - assert (Hl : l < length h0) by (eapply Hd; left; reflexivity).
    assert (Hd' : forall k l, In (k, ORef l) d -> l < length h0)
      by (intros k0 l0 H0; eapply Hd; right; exact H0).
    destruct (memo_get memo l) as [l'|] eqn:El.
    + destruct (IH memo w ext Hw Hd' Hm) as [d' [ext' [E [Hk [Hs [Hf Ha]]]]]].
      destruct (Hm _ _ El) as [[L1 L2] L3].
      exists ((k, ORef l') :: d'), ext'.
      split; [unfold bind; rewrite E; reflexivity|].
      split; [simpl; congruence|]. split; [|split].
      * rewrite !show_cons_ref, Hs, cell_app_l, L3; auto.
      * intros k0 l0 [[= <- <-]|H0]; [exact L1|eapply Hf; eauto].
      * intros k0 l0 [[= <- <-]|H0]; [rewrite length_app; lia|eapply Ha; eauto].
    + set (c := cell (store w) l).
      set (w1 := {| self := self w; store := store w ++ [c] |}).
      assert (Hc : c = cell h0 l).
      { unfold c. rewrite Hw. apply cell_app_l. exact Hl. }
      destruct (IH ((l, length (store w)) :: memo) w1 (ext ++ [c]))
        as [d' [ext' [E [Hk [Hs [Hf Ha]]]]]]; auto.
      * simpl. rewrite Hw, app_assoc. reflexivity.
      * intros l0 l'. simpl. rewrite length_app. simpl.
        destruct (Nat.eqb_spec l l0) as [->|Hne].
        -- intros [= <-]. rewrite cell_app_new. rewrite Hw at 1.
           rewrite length_app. split; [lia|exact Hc].
        -- intros H0. destruct (Hm _ _ H0) as [[L1 L2] L3].
           rewrite cell_app_l by exact L2. split; [lia|exact L3].
      * exists ((k, ORef (length (store w))) :: d'), ([c] ++ ext').
        rewrite (app_assoc (store w) [c] ext').
        change (store w ++ [c]) with (store w1) in E, Hs, Ha |- *.
        split.
        { unfold bind at 1. simpl. unfold alloc, bind at 1. simpl.
          fold c. fold w1. unfold bind. rewrite E. reflexivity. }
        split; [simpl; congruence|]. split; [|split].
        -- rewrite !show_cons_ref, Hs. f_equal. f_equal. f_equal.
           unfold w1 at 1. simpl.
           rewrite cell_app_l, cell_app_new; [exact Hc|].
           rewrite length_app. simpl. lia.
        -- intros k0 l0 [[= <- <-]|H0]; [|eapply Hf; eauto].
           rewrite Hw, length_app. lia.
        -- intros k0 l0 [[= <- <-]|H0]; [|eapply Ha; eauto].
           unfold w1. simpl. rewrite !length_app. simpl. lia.
  - assert (Hd' : forall k l, In (k, ORef l) d -> l < length h0)
      by (intros k0 l0 H0; eapply Hd; right; exact H0).
    destruct (IH memo w ext Hw Hd' Hm) as [d' [ext' [E [Hk [Hs [Hf Ha]]]]]].
    exists ((k, OVal v) :: d'), ext'.
    split; [unfold bind; rewrite E; reflexivity|].
    split; [simpl; congruence|]. split; [|split].
    + change (show (store w ++ ext') ((k, OVal v) :: d'))
        with ((k, SVal v) :: show (store w ++ ext') d').
      rewrite Hs. reflexivity.
    + intros k0 l0 [[=]|H0]. eapply Hf; eauto.
    + intros k0 l0 [[=]|H0]. eapply Ha; eauto.
Qed.

(** X5: [copy.deepcopy] of a dictionary of domains does not raise and
    changes nothing that exists: it only adds lists to the heap. The copy
    has the same keys in the same order, reads the same as the original,
    and every list it holds is a new one. *)
Theorem deepcopy_copies d w :
  (forall k l, In (k, ORef l) d -> l < length (store w)) ->
  exists d' ext,
    deepcopy d w = (Ok d', {| self := self w; store := store w ++ ext |}) /\
    dict_keys d' = dict_keys d /\
    show (store w ++ ext) d' = show (store w) d /\
    fresh d' (length (store w)).
Proof.
  intros Hd.
  destruct (deepcopy_items_copies (store w) d [] w [])
    as [d' [ext [E [Hk [Hs [Hf _]]]]]].
  - rewrite app_nil_r. reflexivity.
  - exact Hd.
  - intros l0 l' [=].
  - exists d', ext. auto.
Qed.

(** The domains of the equal pair are copied into two new lists. *)
Lemma deepcopy_copies_witness :
  exists d' ext,
    deepcopy (domains (self equal_pair)) equal_pair
    = (Ok d', {| self := self equal_pair; store := store equal_pair ++ ext |}) /\
    dict_keys d' = dict_keys (domains (self equal_pair)) /\
    show (store equal_pair ++ ext) d'
    = show (store equal_pair) (domains (self equal_pair)) /\
    fresh d' (length (store equal_pair)).
Proof.
  apply deepcopy_copies.
  intros k l H. vm_compute in H.
  destruct H as [H|[H|[]]]; inversion H; subst; vm_compute; lia.
Defined.

(** ** What [backtrack] returns *)

Lemma deepcopy_items_keys d : forall memo w d' w',
  deepcopy_items d memo w = (Ok d', w') ->
  dict_keys d' = dict_keys d /\ self w' = self w.
Proof.
  induction d as [|[k [l|v]] d IH]; intros memo w d' w'; simpl.
  - intros [= <- <-]. auto.
  - destruct (memo_get memo l).
    + intros H. apply bind_Ok_inv in H as [r [w1 [E H]]].
      apply IH in E as [E1 E2]. inversion H; subst. simpl. split; congruence.
    + intros H. apply bind_Ok_inv in H as [h [w1 [E0 H]]].
      apply reads_run in E0; [subst w1|auto with reads].
      apply bind_Ok_inv in H as [l' [w1 [E1 H]]].
      assert (self w1 = self w).
      { unfold alloc, bind, get_store in E1; simpl in E1.
        inversion E1. reflexivity. }
      apply bind_Ok_inv in H as [r [w2 [E H]]].
      apply IH in E as [E2 E3]. inversion H; subst. simpl. split; congruence.
  - intros H. apply bind_Ok_inv in H as [r [w1 [E H]]].
    apply IH in E as [E1 E2]. inversion H; subst. simpl. split; congruence.
Qed.

Lemma assign_copy_keys a var val w tmp w' :
  In var (dict_keys a) ->
  assign_copy a var val w = (Ok tmp, w') ->
  dict_keys tmp = dict_keys a /\ self w' = self w.
Proof.
  intros Hin H. unfold assign_copy in H.
  apply bind_Ok_inv in H as [t [w1 [E H]]].
  apply deepcopy_items_keys in E as [E1 E2]. inversion H; subst.
  split; [|exact E2].
  assert (In var (dict_keys t)) as Hv by congruence.
  apply dict_keys_get in Hv as [o Ho].
  rewrite (dict_set_keys _ _ _ _ Ho). exact E1.
Qed.

Lemma try_value_keys a var val w t w' :
  In var (dict_keys a) ->
  try_value a var val w = (Ok t, w') ->
  dict_keys (snd t) = dict_keys a /\ counters_kept (self w) (self w').
Proof.
  intros Hin H. unfold try_value in H.
  apply bind_Ok_inv in H as [tmp [w1 [E1 H]]].
  apply assign_copy_keys in E1 as [K1 S1]; [|exact Hin].
  apply bind_Ok_inv in H as [arcs [w2 [E2 H]]].
  apply reads_run in E2; [subst w2|auto with reads].
  apply bind_Ok_inv in H as [b [w2 [E3 H]]].
  pose proof (wp_run _ _ _ _ _ (inference_effect tmp arcs w1) E3) as K.
  inversion H; subst. simpl. split; [exact K1|].
  destruct (run_counters _ _ _ K) as [B F]. split; congruence.
Qed.

Lemma select_in_keys a w var w' :
  select_unassigned_variable a w = (Ok var, w') -> In var (dict_keys a).
Proof.
  unfold select_unassigned_variable.
  destruct (dict_keys a) as [|v rest] eqn:Hk; [discriminate|].
  intros H. apply bind_Ok_inv in H as [k [w1 [E H]]].
  pose proof (reads_run _ _ _ _ (reads_remaining_key a v) E) as ->.
  apply (min_loop_spec a rest v k w var w' [] []) in H; auto;
    try (intros u []).
  destruct H as [_ [pre [post [kv [Heq _]]]]]. simpl in Heq. rewrite Heq.
  apply in_app_iff. right. left. reflexivity.
Qed.

Lemma branch_loop_returns_keys rec (D : dict obj -> world -> Prop)
    (Hrec : forall a w r w', rec a w = (Ok (Some r), w') ->
                             dict_keys r = dict_keys a /\ D r w')
    n a var it k w r w' :
  In var (dict_keys a) ->
  branch_loop rec n a var it k w = (Ok (Some r), w') ->
  dict_keys r = dict_keys a /\ D r w'.
Proof.
  intros Hin. revert k w.
  induction n as [|n IH]; intros k w; simpl; [discriminate|].
  intros H. apply bind_Ok_inv in H as [nx [w1 [_ H]]].
  destruct nx as [val|]; [|discriminate].
  apply bind_Ok_inv in H as [t [w2 [E H]]].
  apply try_value_keys in E as [K _]; [|exact Hin].
  destruct (fst t); [|eapply IH; eauto].
  apply bind_Ok_inv in H as [result [w3 [E H]]].
  destruct (truthy result); [|eapply IH; eauto].
  inversion H; subst. apply Hrec in E as [E1 E2]. split; [congruence|exact E2].
Qed.

Lemma backtrack_returns_keys depth : forall a w r w',
  backtrack depth a w = (Ok (Some r), w') ->
  dict_keys r = dict_keys a /\
  forall k o, In (k, o) r -> py_len o w' = (Ok 1, w').
Proof.
  induction depth as [|depth IH]; intros a w r w'; cbn [backtrack];
    [discriminate|].
  intros H. apply bind_Ok_inv in H as [done [w1 [E H]]].
  destruct done.
  - apply all_decided_true in E as [_ [-> Hall]].
    inversion H; subst. auto.
  - apply bind_Ok_inv in H as [u [w2 [_ H]]].
    apply bind_Ok_inv in H as [var [w3 [Ev H]]].
    apply select_in_keys in Ev.
    apply bind_Ok_inv in H as [it [w4 [_ H]]].
    apply bind_Ok_inv in H as [n [w5 [_ H]]].
    apply bind_Ok_inv in H as [result [w6 [E6 H]]].
    destruct result as [r'|].
    + inversion H; subst.
      apply (branch_loop_returns_keys (backtrack depth)
               (fun r w' => forall k o, In (k, o) r -> py_len o w' = (Ok 1, w'))
               IH _ _ _ _ _ _ _ _ Ev E6).
    + apply bind_Ok_inv in H as [u' [w7 [_ H]]]. discriminate.
Qed.

(** X6: an assignment that [backtracking_search] returns is complete: it
    has the variables of the graph as its keys, in the order of their
    declaration, and maps each of them to a sequence of length one (a list
    of one value, or a string of one character). *)
Theorem backtracking_search_returns_complete depth w r w' :
  backtracking_search depth w = (Ok (Some r), w') ->
  dict_keys r = dict_keys (domains (self w)) /\
  forall k o, In (k, o) r -> py_len o w' = (Ok 1, w').
Proof.
  unfold backtracking_search. intros H.
  apply bind_Ok_inv in H as [c [w1 [E H]]]. inversion E; subst c w1; clear E.
  apply bind_Ok_inv in H as [a [w1 [E1 H]]].
  apply deepcopy_items_keys in E1 as [K1 _].
  apply bind_Ok_inv in H as [arcs [w2 [_ H]]].
  apply bind_Ok_inv in H as [b [w3 [_ H]]].
  apply backtrack_returns_keys in H as [K2 D]. split; [congruence|exact D].
Qed.

Lemma backtracking_search_returns_complete_witness :
  dict_keys (match fst (backtracking_search 10 two_cells) with
             | Ok (Some r) => r
             | _ => []
             end)
  = dict_keys (domains (self two_cells)).
Proof.
  set (x := backtracking_search 10 two_cells).
  assert (E : x = backtracking_search 10 two_cells) by reflexivity.
  vm_compute in x.
  match goal with x := (Ok (Some ?r), ?w') |- _ =>
    exact (proj1 (backtracking_search_returns_complete 10 two_cells r w'
                    (eq_sym E)))
  end.
Defined.

Lemma all_decided_complete items w : forall done,
  (forall k o, In (k, o) items -> py_len o w = (Ok 1, w)) ->
  all_decided items done w = (Ok done, w).
Proof.
  induction items as [|[k o] items IH]; intros done H; simpl; [reflexivity|].
  rewrite (bind_run _ _ w 1 w (H k o (or_introl eq_refl))). simpl.
  apply IH. intros k' o' Hin. apply (H k' o'). right. exact Hin.
Qed.

(** X7: [backtrack] on an assignment that is already complete returns that
    assignment at once: nothing is copied, AC-3 is not run, and the two
    counters stay as they are. *)
Theorem backtrack_complete_returns_at_once depth a w :
  (forall k o, In (k, o) a -> py_len o w = (Ok 1, w)) ->
  backtrack (S depth) a w = (Ok (Some a), w).
Proof.
  intros H. cbn [backtrack].
  rewrite (bind_run _ _ w true w (all_decided_complete a w true H)).
  reflexivity.
Qed.

Lemma backtrack_complete_returns_at_once_witness :
  backtrack 1 [("A"%string, OVal (VStr "1")); ("B"%string, ORef 0)]
            {| self := CSP_init; store := [[VStr "2"]] |}
  = (Ok (Some [("A"%string, OVal (VStr "1")); ("B"%string, ORef 0)]),
     {| self := CSP_init; store := [[VStr "2"]] |}).
Proof.
  apply backtrack_complete_returns_at_once.
  intros k o [H|[H|[]]]; inversion H; reflexivity.
Defined.

(** ** The counters *)

Lemma counted_refl w : counted w w.
Proof. unfold counted. lia. Qed.

Lemma counted_trans w1 w2 w3 : counted w1 w2 -> counted w2 w3 -> counted w1 w3.
Proof. unfold counted. lia. Qed.

Lemma counted_same w w' : counters_kept (self w) (self w') -> counted w w'.
Proof. unfold counted. intros [-> ->]. lia. Qed.

Lemma deepcopy_items_self d : forall memo w,
  wp (deepcopy_items d memo) w (fun _ w' => self w' = self w).
Proof.
  induction d as [|[k [l|v]] d IH]; intros memo w; simpl.
  - wp_step. reflexivity.
  - destruct (memo_get memo l).
    + wp_step. eapply wp_mono; [apply IH|].
      intros [r|e] w1 E; [wp_step|]; exact E.
    + do 3 wp_step. unfold alloc. do 3 wp_step. wp_step. wp_step.
      wp_step. eapply wp_mono; [apply IH|].
      intros [r|e] w1 E; [wp_step|]; exact E.
  - wp_step. eapply wp_mono; [apply IH|].
    intros [r|e] w1 E; [wp_step|]; exact E.
Qed.

Lemma try_value_counted a var val w :
  wp (try_value a var val) w (fun _ w' => counters_kept (self w) (self w')).
Proof.
  unfold try_value, assign_copy. do 2 wp_step.
  eapply wp_mono; [apply deepcopy_items_self|].
  intros [tmp|e] w1 S1; [|rewrite S1; split; reflexivity].
  wp_step. wp_step. apply wp_reads; [auto with reads|].
  intros [arcs|e]; [|rewrite S1; split; reflexivity].
  wp_step. eapply wp_mono; [apply inference_effect|].
  intros [b|e] w2 K; [wp_step|];
    (destruct (run_counters _ _ _ K) as [B F]; split; congruence).
Qed.

Lemma branch_loop_counted rec
    (Hrec : forall a w, wp (rec a) w (fun _ w' => counted w w'))
    n a var it k w :
  wp (branch_loop rec n a var it k) w (fun _ w' => counted w w').
Proof.
  revert k w. induction n as [|n IH]; intros k w; simpl.
  - wp_step. apply counted_refl.
  - wp_step. apply wp_reads; [auto with reads|].
    intros [[val|]|e]; try (try wp_step; apply counted_refl).
    wp_step. eapply wp_mono; [apply try_value_counted|].
    intros [[b tmp]|e] w1 K; [|apply counted_same, K]. simpl.
    apply counted_same in K.
    destruct b.
    + wp_step. eapply wp_mono; [apply Hrec|].
      intros [result|e] w2 K2; [|eapply counted_trans; eauto].
      assert (K3 : counted w w2) by (eapply counted_trans; eauto).
      destruct (truthy result); [wp_step; exact K3|].
      eapply wp_mono; [apply IH|].
      intros ? w3 K4. eapply counted_trans; eauto.
    + eapply wp_mono; [apply IH|].
      intros ? w3 K4. eapply counted_trans; eauto.
Qed.

Lemma count_backtrack_counts w :
  wp count_backtrack w (fun r w' =>
    r = Ok tt /\ backtracks (self w') = S (backtracks (self w)) /\
    failed (self w') = failed (self w)).
Proof. unfold wp. simpl. auto. Qed.

Lemma count_failed_counts w :
  wp count_failed w (fun r w' =>
    r = Ok tt /\ backtracks (self w') = backtracks (self w) /\
    failed (self w') = S (failed (self w))).
Proof. unfold wp. simpl. auto. Qed.

Lemma backtrack_counted depth a w :
  wp (backtrack depth a) w (fun r w' =>
    counted w w' /\
    (r = Ok None -> failed (self w) < failed (self w'))).
Proof.
  revert a w. induction depth as [|depth IH]; intros a w; cbn [backtrack].
  - wp_step. split; [apply counted_refl|discriminate].
  - wp_step. apply wp_reads; [auto with reads|].
    intros [[|]|e]; try (try wp_step; split; [apply counted_refl|discriminate]).
    wp_step. eapply wp_mono; [apply count_backtrack_counts|].
    intros r1 w1 [-> [B1 F1]].
    assert (Hc : forall r w', counted w1 w' ->
                   counted w w' /\ (r = @Ok (option (dict obj)) None ->
                                    failed (self w1) < failed (self w') ->
                                    failed (self w) < failed (self w'))).
    { intros r w' [C1 [C2 C3]]. unfold counted. rewrite B1, F1 in *.
      repeat split; lia. }
    wp_step. apply wp_reads; [auto with reads|].
    intros [var|e]; [|split; [apply (Hc (Raise e)), counted_refl|discriminate]].
    wp_step. apply wp_reads; [auto with reads|].
    intros [it|e]; [|split; [apply (Hc (Raise e)), counted_refl|discriminate]].
    wp_step. apply wp_reads; [auto with reads|].
    intros [len|e]; [|split; [apply (Hc (Raise e)), counted_refl|discriminate]].
    wp_step. eapply wp_mono.
    { apply (branch_loop_counted (backtrack depth)).
      intros a' w'. eapply wp_mono; [apply IH|]. intros ? ? [K _]. exact K. }
    intros [[r|]|e] w2 K2.
    + wp_step. split; [apply (Hc (Raise KeyError)), K2|discriminate].
    + wp_step. eapply wp_mono; [apply count_failed_counts|].
      intros r3 w3 [-> [B3 F3]]. wp_step.
      unfold counted in *. rewrite B3, F3, B1, F1 in *.
      split; [repeat split; lia|]. intros _. lia.
    + split; [apply (Hc (Raise e)), K2|discriminate].
Qed.

(** X8: along [backtrack] the two counters never decrease, [failed] grows
    by no more than [backtracks], and a call that returns [None] has
    counted at least one failure. *)
Theorem backtrack_counters depth a w :
  counted w (snd (backtrack depth a w)) /\
  (fst (backtrack depth a w) = Ok None ->
   failed (self w) < failed (self (snd (backtrack depth a w)))).
Proof. apply (backtrack_counted depth a w). Qed.

(** ** Registering constraints *)

Lemma dict_set_set {V} (d : dict V) k v1 v2 :
  dict_set (dict_set d k v1) k v2 = dict_set d k v2.
Proof.
  induction d as [|[k0 v0] d IH]; simpl.
  - rewrite String.eqb_refl. reflexivity.
  - destruct (String.eqb_spec k k0) as [->|Hne]; simpl.
    + rewrite String.eqb_refl. reflexivity.
    + destruct (String.eqb_spec k k0); [contradiction|]. rewrite IH. reflexivity.
Qed.

Lemma dict_set_keys_new {V} (d : dict V) k v :
  dict_get d k = None -> dict_keys (dict_set d k v) = dict_keys d ++ [k].
Proof.
  induction d as [|[k0 v0] d IH]; simpl; [reflexivity|].
  destruct (String.eqb k k0); [discriminate|]. simpl.
  intros H. rewrite IH; auto.
Qed.

Lemma dict_set_NoDup {V} (d : dict V) k v :
  NoDup (dict_keys d) -> NoDup (dict_keys (dict_set d k v)).
Proof.
  intros H. destruct (dict_get d k) as [v0|] eqn:E.
  - rewrite (dict_set_keys _ _ _ _ E). exact H.
  - rewrite (dict_set_keys_new _ _ _ E). apply NoDup_app. split; [exact H|].
    split; [|apply NoDup_singleton].
    intros x Hx Hk. apply list_elem_of_singleton in Hk. subst x.
    apply list_elem_of_In, dict_keys_get in Hx as [v0 Hv]. congruence.
Qed.

Lemma add_constraint_one_way_inv i j f w w' :
  add_constraint_one_way i j f w = (Ok tt, w') ->
  exists ci old,
    dict_get (constraints (self w)) i = Some ci /\
    candidate_pairs w i j old /\
    w' = with_constraint w i j ci
           (List.filter (fun vp => f (fst vp) (snd vp)) old).
Proof.
  unfold add_constraint_one_way, candidate_pairs, constraint_of. intros H.
  apply bind_Ok_inv in H as [c [w1 [E H]]]. inversion E; subst c w1; clear E.
  apply bind_Ok_inv in H as [ci [w1 [E H]]].
  apply subscript_Ok in E as [Hci ->]. rewrite Hci.
  apply bind_Ok_inv in H as [ci1 [w1 [E1 H]]].
  unfold dict_mem in E1.
  destruct (dict_get ci j) as [p|] eqn:Hp.
  - inversion E1; subst ci1 w1; clear E1.
    apply bind_Ok_inv in H as [old [w1 [E2 H]]].
    apply subscript_Ok in E2 as [Ho ->].
    assert (old = p) as -> by congruence.
    exists ci, (pairs_items p). split; [reflexivity|]. split; [reflexivity|].
    inversion H. reflexivity.
  - apply bind_Ok_inv in E1 as [oi [w2 [E2 E1]]].
    apply subscript_Ok in E2 as [Hoi ->].
    apply bind_Ok_inv in E1 as [oj [w2 [E2 E1]]].
    apply subscript_Ok in E2 as [Hoj ->].
    apply bind_Ok_inv in E1 as [h [w2 [E2 E1]]].
    inversion E2; subst h w2; clear E2.
    apply bind_Ok_inv in E1 as [a [w2 [E2 E1]]].
    destruct (contents (store w) oi) as [a'|] eqn:Ha; [|discriminate].
    inversion E2; subst a' w2; clear E2.
    apply bind_Ok_inv in E1 as [b [w2 [E2 E1]]].
    destruct (contents (store w) oj) as [b'|] eqn:Hb; [|discriminate].
    inversion E2; subst b' w2; clear E2.
    inversion E1; subst ci1 w1; clear E1.
    apply bind_Ok_inv in H as [old [w1 [E2 H]]].
    apply subscript_Ok in E2 as [Ho ->].
    rewrite dict_get_set, String.eqb_refl in Ho. inversion Ho; subst old.
    exists ci, (get_all_possible_pairs a b). split; [reflexivity|].
    split; [exists oi, oj, a, b; auto|].
    inversion H. unfold with_constraint. rewrite dict_set_set. reflexivity.
Qed.

Lemma add_constraint_one_way_run i j f w ci old :
  dict_get (constraints (self w)) i = Some ci ->
  candidate_pairs w i j old ->
  add_constraint_one_way i j f w
  = (Ok tt, with_constraint w i j ci
              (List.filter (fun vp => f (fst vp) (snd vp)) old)).
Proof.
  unfold candidate_pairs, constraint_of. intros Hci. rewrite Hci. intros Hold.
  unfold add_constraint_one_way.
  rewrite (bind_run get_self _ w (self w) w eq_refl).
  rewrite (bind_run _ _ w _ _ (subscript_run _ i ci w Hci)).
  unfold dict_mem. destruct (dict_get ci j) as [p|] eqn:Hp.
  - subst old.
    rewrite (bind_run (ret ci) _ w ci w eq_refl).
    rewrite (bind_run _ _ w _ _ (subscript_run ci j p w Hp)). reflexivity.
  - destruct Hold as [oi [oj [a [b [Hoi [Hoj [Ha [Hb ->]]]]]]]].
    erewrite (bind_run _ _ w (dict_set ci j (PIter (get_all_possible_pairs a b))) w).
    + erewrite (bind_run _ _ w (PIter (get_all_possible_pairs a b)) w).
      * unfold with_constraint. rewrite dict_set_set. reflexivity.
      * apply subscript_run. rewrite dict_get_set, String.eqb_refl. reflexivity.
    + rewrite (bind_run _ _ w _ _ (subscript_run _ i oi w Hoi)).
      rewrite (bind_run _ _ w _ _ (subscript_run _ j oj w Hoj)).
      rewrite (bind_run get_store _ w (store w) w eq_refl).
      rewrite Ha, Hb. reflexivity.
Qed.

Lemma constraint_of_with w i j ci kept i' j' :
  dict_get (constraints (self w)) i = Some ci ->
  constraint_of (self (with_constraint w i j ci kept)) i' j' =
  if String.eqb i' i && String.eqb j' j then Some (PIter kept)
  else constraint_of (self w) i' j'.
Proof.
  intros Hci. unfold constraint_of, with_constraint. simpl.
  rewrite dict_get_set. destruct (String.eqb_spec i' i) as [->|]; simpl.
  - rewrite dict_get_set, Hci. destruct (String.eqb j' j); reflexivity.
  - reflexivity.
Qed.

(** X9: a successful [add_constraint_one_way(i, j, f)] touches one entry.
    It leaves the variables, the domain templates, the heap and the
    constraint of every other ordered pair as they were, (j, i) included,
    and stores for (i, j) a [filter] object that yields, in their order,
    the pairs that satisfy [f] among those stored for (i, j) before or,
    when there were none, among the product of the two domain templates. *)
Theorem add_constraint_one_way_registers i j f w w' :
  add_constraint_one_way i j f w = (Ok tt, w') ->
  variables (self w') = variables (self w) /\
  domains (self w') = domains (self w) /\
  store w' = store w /\
  (forall i' j', (i', j') <> (i, j) ->
     constraint_of (self w') i' j' = constraint_of (self w) i' j') /\
  exists old,
    candidate_pairs w i j old /\
    constraint_of (self w') i j
    = Some (PIter (List.filter (fun vp => f (fst vp) (snd vp)) old)) /\
    forall x y,
      In (x, y) (List.filter (fun vp => f (fst vp) (snd vp)) old)
      <-> In (x, y) old /\ f x y = true.
Proof.
  intros H. apply add_constraint_one_way_inv in H as [ci [old [Hci [Hold ->]]]].
  split; [reflexivity|]. split; [reflexivity|]. split; [reflexivity|]. split.
  - intros i' j' Hne. rewrite constraint_of_with by exact Hci.
    destruct (String.eqb_spec i' i) as [->|]; [|reflexivity].
    destruct (String.eqb_spec j' j) as [->|]; [congruence|reflexivity].
  - exists old. split; [exact Hold|]. split.
    + rewrite constraint_of_with by exact Hci.
      rewrite !String.eqb_refl. reflexivity.
    + intros x y. rewrite filter_In. reflexivity.
Qed.

Lemma add_constraint_one_way_registers_witness :
  constraint_of (self one_way) "B" "A" = None /\
  exists kept, constraint_of
                 (self (snd (add_constraint_one_way "B" "A" not_equal one_way)))
                 "B" "A" = Some (PIter kept) /\
               constraint_of
                 (self (snd (add_constraint_one_way "B" "A" not_equal one_way)))
                 "A" "B" = constraint_of (self one_way) "A" "B".
Proof.
  split; [reflexivity|].
  destruct (add_constraint_one_way_registers "B" "A" not_equal one_way
              (snd (add_constraint_one_way "B" "A" not_equal one_way)))
    as [_ [_ [_ [Ho [old [_ [Hk _]]]]]]].
  - vm_compute. reflexivity.
  - eexists. split; [exact Hk|]. apply Ho. discriminate.
Defined.

Lemma filter_twice {A} (f g : A -> bool) (l : list A) :
  List.filter g (List.filter f l) = List.filter (fun x => f x && g x) l.
Proof.
  induction l as [|x l IH]; simpl; [reflexivity|].
  destruct (f x); simpl; [destruct (g x)|]; rewrite ?IH; reflexivity.
Qed.

(** X10: registering a second predicate on the same ordered pair filters
    what the first one left: [f] and then [g] give the same graph as one
    registration of their conjunction. *)
Theorem add_constraint_one_way_twice i j f g w w1 :
  add_constraint_one_way i j f w = (Ok tt, w1) ->
  add_constraint_one_way i j g w1
  = add_constraint_one_way i j (fun x y => f x y && g x y) w.
Proof.
  intros H. apply add_constraint_one_way_inv in H as [ci [old [Hci [Hold ->]]]].
  rewrite (add_constraint_one_way_run i j _ w ci old Hci Hold).
  set (k1 := List.filter (fun vp => f (fst vp) (snd vp)) old).
  rewrite (add_constraint_one_way_run i j g (with_constraint w i j ci k1)
             (dict_set ci j (PIter k1)) k1).
  - unfold with_constraint. simpl. rewrite !dict_set_set.
    unfold k1. rewrite filter_twice. reflexivity.
  - simpl. rewrite dict_get_set, String.eqb_refl. reflexivity.
  - unfold candidate_pairs. rewrite constraint_of_with by exact Hci.
    rewrite !String.eqb_refl. reflexivity.
Qed.

Lemma add_constraint_one_way_twice_witness :
  add_constraint_one_way "A" "B" value_eqb
    (snd (add_constraint_one_way "A" "B" not_equal two_variables))
  = add_constraint_one_way "A" "B"
      (fun x y => not_equal x y && value_eqb x y) two_variables.
Proof.
  refine (add_constraint_one_way_twice "A" "B" not_equal value_eqb
            two_variables _ _).
  vm_compute. reflexivity.
Defined.

(** ** The invariants of a graph under construction *)

Lemma keys_ok_with w i j ci kept :
  dict_get (constraints (self w)) i = Some ci ->
  keys_ok (self w) -> keys_ok (self (with_constraint w i j ci kept)).
Proof.
  intros Hci [N1 N2]. split; simpl.
  - apply dict_set_NoDup, N1.
  - intros i' c' Hin. apply dict_set_In in Hin as [[= -> ->]|Hin].
    + apply dict_set_NoDup. apply (N2 i). apply dict_get_In, Hci.
    + eapply N2; eauto.
Qed.

Lemma add_variable_well_built name domain w :
  well_built w -> well_built (snd (add_variable name domain w)).
Proof.
  intros [G [[N1 N2] T]]. split; [apply add_variable_ok, G|]. split.
  - split; simpl.
    + apply dict_set_NoDup, N1.
    + intros i ci Hin. apply dict_set_In in Hin as [[= -> ->]|Hin].
      * constructor.
      * eapply N2; eauto.
  - intros i o. simpl. rewrite dict_get_set, length_app. simpl.
    destruct (String.eqb i name).
    + intros [= <-]. exists (length (store w)). split; [reflexivity|lia].
    + intros H. destruct (T i o H) as [l [-> Hl]]. exists l. split; [auto|lia].
Qed.

Lemma add_constraint_one_way_well_built i j f w :
  well_built w -> well_built (snd (add_constraint_one_way i j f w)).
Proof.
  intros [G [K T]].
  pose proof (add_constraint_one_way_ok i j f w G) as H. unfold wp in H.
  destruct (add_constraint_one_way i j f w) as [[[]|e] w'] eqn:E; simpl in *.
  - destruct H as [G' _]. split; [exact G'|].
    apply add_constraint_one_way_inv in E as [ci [old [Hci [_ ->]]]].
    split; [apply keys_ok_with; assumption|exact T].
  - destruct H as [_ H]. rewrite (H e eq_refl). split; auto.
Qed.

Lemma add_all_different_well_built vars w :
  well_built w -> well_built (snd (add_all_different_constraint vars w)).
Proof.
  intros H. apply (for_each_ok well_built); [|exact H].
  intros [a b] w0 H0; simpl. destruct (String.eqb a b); [exact H0|].
  apply add_constraint_one_way_well_built, H0.
Qed.

Lemma listify_constraints_well_built w :
  well_built w -> well_built (snd (listify_constraints w)).
Proof.
  intros [G [[N1 N2] T]]. split; [apply listify_constraints_ok, G|].
  split; [|exact T]. split; simpl.
  - unfold dict_keys in *. rewrite map_map. simpl. exact N1.
  - intros i ci Hin. apply in_map_iff in Hin as [[i0 c0] [[= <- <-] Hin]].
    unfold dict_keys. rewrite map_map. simpl. apply (N2 _ _ Hin).
Qed.

Lemma built_well_built w : built w -> well_built w.
Proof.
  induction 1 as [|w name domain _ IH|w i j f _ IH|w vars _ IH|w _ IH].
  - split; [apply graph_ok_init|]. split.
    + split; [constructor|intros i ci []].
    + intros i o [=].
  - apply add_variable_well_built, IH.
  - apply add_constraint_one_way_well_built, IH.
  - apply add_all_different_well_built, IH.
  - apply listify_constraints_well_built, IH.
Qed.

(** ** [get_all_arcs] *)

Lemma NoDup_dict_get {V} (d : dict V) k v :
  NoDup (dict_keys d) -> In (k, v) d -> dict_get d k = Some v.
Proof.
  induction d as [|[k0 v0] d IH]; simpl; [tauto|].
  intros N [[= -> ->]|Hin].
  - rewrite String.eqb_refl. reflexivity.
  - apply NoDup_cons in N as [N0 N].
    destruct (String.eqb_spec k k0) as [->|]; [|auto].
    exfalso. apply N0. apply list_elem_of_In.
    apply (in_map fst) in Hin. exact Hin.
Qed.

Lemma arcs_of_In cs i j :
  In (i, j) (arcs_of cs) <-> exists ci, In (i, ci) cs /\ In j (dict_keys ci).
Proof.
  unfold arcs_of. rewrite in_flat_map. split.
  - intros [[i0 ci] [Hin Hm]]. simpl in Hm.
    apply in_map_iff in Hm as [j0 [[= -> ->] Hj]]. eauto.
  - intros [ci [Hin Hj]]. exists (i, ci). split; [exact Hin|].
    simpl. apply in_map_iff. eauto.
Qed.

Lemma arcs_of_NoDup cs :
  NoDup (dict_keys cs) ->
  (forall i ci, In (i, ci) cs -> NoDup (dict_keys ci)) ->
  NoDup (arcs_of cs).
Proof.
  induction cs as [|[i ci] cs IH]; simpl; intros N1 N2; [constructor|].
  apply NoDup_cons in N1 as [Hi N1].
  apply NoDup_app. split; [|split].
  - apply NoDup_fmap_2; [intros x y [=]; auto|]. apply (N2 i). left. reflexivity.
  - intros [i0 j0] H1 H2. apply list_elem_of_In in H1, H2.
    apply in_map_iff in H1 as [j1 [[= <- <-] _]].
    apply arcs_of_In in H2 as [c' [Hin _]].
    apply Hi. apply list_elem_of_In. apply (in_map fst) in Hin. exact Hin.
  - apply IH; [exact N1|]. intros i0 c0 Hin. apply (N2 i0). right. exact Hin.
Qed.

(** X11: on a graph under construction [get_all_arcs] only reads, and the
    list it returns holds every registered ordered pair (i, j) exactly
    once, and nothing else. *)
Theorem get_all_arcs_registered w :
  built w ->
  exists arcs,
    get_all_arcs w = (Ok arcs, w) /\ NoDup arcs /\
    forall i j, In (i, j) arcs <-> registered (self w) i j.
Proof.
  intros B. destruct (built_well_built w B) as [_ [[N1 N2] _]].
  exists (arcs_of (constraints (self w))). split; [reflexivity|]. split.
  - apply arcs_of_NoDup; assumption.
  - intros i j. rewrite arcs_of_In, registered_keys. split.
    + intros [ci [Hin Hj]]. exists ci. split; [|exact Hj].
      apply NoDup_dict_get; assumption.
    + intros [ci [Hg Hj]]. exists ci. split; [|exact Hj].
      apply dict_get_In, Hg.
Qed.

Lemma get_all_arcs_registered_witness :
  exists arcs,
    get_all_arcs (snd (add_variable "A" [VStr "1"] world_init))
    = (Ok arcs, snd (add_variable "A" [VStr "1"] world_init)) /\
    NoDup arcs /\
    forall i j, In (i, j) arcs <->
                registered (self (snd (add_variable "A" [VStr "1"] world_init)))
                           i j.
Proof.
  apply get_all_arcs_registered. apply built_add_variable, built_init.
Defined.

(** ** [listify_constraints] *)

Lemma listified_map (cs : dict (dict pairs)) :
  forallb (fun e : string * dict pairs =>
             forallb (fun f : string * pairs => is_list (snd f)) (snd e))
          (map (fun e : string * dict pairs =>
                  (fst e, map (fun f : string * pairs =>
                                 (fst f, PList (pairs_items (snd f)))) (snd e)))
               cs) = true.
Proof.
  apply forallb_forall. intros e He.
  apply in_map_iff in He as [e0 [<- _]]. simpl.
  apply forallb_forall. intros f Hf.
  apply in_map_iff in Hf as [f0 [<- _]]. reflexivity.
Qed.

Lemma listify_constraint_of w i j :
  constraint_of (self (snd (listify_constraints w))) i j
  = option_map (fun p => PList (pairs_items p)) (constraint_of (self w) i j).
Proof.
  unfold constraint_of. simpl.
  rewrite (dict_get_map
    (map (fun f : string * pairs => (fst f, PList (pairs_items (snd f)))))).
  destruct (dict_get (constraints (self w)) i) as [ci|]; simpl; [|reflexivity].
  apply (dict_get_map (fun p => PList (pairs_items p))).
Qed.

(** X12: the loop that ends both builders does not raise and leaves a
    graph whose constraints are all lists, each with the pairs its entry
    had still to yield; variables, domain templates, counters and heap
    are as before, and running the loop again changes nothing. *)
Theorem listify_constraints_lists w :
  fst (listify_constraints w) = Ok tt /\
  listified (self (snd (listify_constraints w))) = true /\
  same_base w (snd (listify_constraints w)) /\
  counters_kept (self w) (self (snd (listify_constraints w))) /\
  (forall i j,
     constraint_of (self (snd (listify_constraints w))) i j
     = option_map (fun p => PList (pairs_items p))
                  (constraint_of (self w) i j)) /\
  snd (listify_constraints (snd (listify_constraints w)))
  = snd (listify_constraints w).
Proof.
  split; [reflexivity|]. split; [apply listified_map|].
  split; [repeat split|]. split; [split; reflexivity|]. split.
  - apply listify_constraint_of.
  - unfold listify_constraints, bind, get_self, put_self, set_constraints.
    simpl. f_equal. f_equal. rewrite map_map. apply map_ext.
    intros [i ci]. simpl. f_equal. rewrite map_map. apply map_ext.
    intros [j p]. reflexivity.
Qed.

(** ** [add_all_different_constraint] *)

Lemma not_equal_true x y : not_equal x y = true <-> x <> y.
Proof.
  unfold not_equal. rewrite negb_true_iff. split.
  - intros H ->. rewrite value_eqb_refl in H. discriminate.
  - intros H. destruct (value_eqb x y) eqn:E; [|reflexivity].
    apply value_eqb_eq in E. contradiction.
Qed.

Lemma candidate_pairs_same_base w0 w i j old :
  same_base w0 w -> constraint_of (self w) i j = constraint_of (self w0) i j ->
  candidate_pairs w i j old -> candidate_pairs w0 i j old.
Proof.
  intros [_ [D S]] C. unfold candidate_pairs. rewrite C, D, S. auto.
Qed.

Lemma candidate_pairs_exist w i j :
  well_built w -> declared (self w) i -> declared (self w) j ->
  exists ci old, dict_get (constraints (self w)) i = Some ci /\
                 candidate_pairs w i j old.
Proof.
  intros [[D C T] [_ TO]] Hi Hj. unfold declared in *.
  apply D in Hi, Hj.
  assert (Hc : dict_mem (constraints (self w)) i = true) by (rewrite C; exact Hi).
  unfold dict_mem in Hc, Hi, Hj.
  destruct (dict_get (constraints (self w)) i) as [ci|] eqn:Eci; [|discriminate].
  exists ci. unfold candidate_pairs, constraint_of. rewrite Eci.
  destruct (dict_get ci j) as [p|]; [eauto|].
  destruct (dict_get (domains (self w)) i) as [oi|] eqn:Ei; [|discriminate].
  destruct (dict_get (domains (self w)) j) as [oj|] eqn:Ej; [|discriminate].
  destruct (TO _ _ Ei) as [li [-> _]]. destruct (TO _ _ Ej) as [lj [-> _]].
  exists (get_all_possible_pairs (cell (store w) li) (cell (store w) lj)).
  split; [reflexivity|].
  exists (ORef li), (ORef lj), (cell (store w) li), (cell (store w) lj).
  repeat split; reflexivity.
Qed.

Lemma all_different_loop w0 ps : forall done w,
  well_built w -> same_base w0 w ->
  (forall a b, In (a, b) ps -> declared (self w0) a /\ declared (self w0) b) ->
  (forall i j, In (i, j) done -> i <> j -> differ_registered w0 w i j) ->
  (forall i j, ~ (In (i, j) done /\ i <> j) ->
               constraint_of (self w) i j = constraint_of (self w0) i j) ->
  exists w',
    for_each ps (fun ij => if String.eqb (fst ij) (snd ij) then ret tt
                           else add_constraint_one_way (fst ij) (snd ij)
                                                       not_equal) w
    = (Ok tt, w') /\
    well_built w' /\ same_base w0 w' /\
    (forall i j, In (i, j) (done ++ ps) -> i <> j ->
                 differ_registered w0 w' i j) /\
    (forall i j, ~ (In (i, j) (done ++ ps) /\ i <> j) ->
                 constraint_of (self w') i j = constraint_of (self w0) i j).
Proof.
  induction ps as [|[a b] ps IH]; intros done w WB SB Hd Hin Hout; simpl.
  - exists w. rewrite app_nil_r. auto.
  - assert (Hd' : forall a0 b0, In (a0, b0) ps ->
                    declared (self w0) a0 /\ declared (self w0) b0)
      by (intros a0 b0 H0; apply Hd; right; exact H0).
    assert (Happ : forall i j, In (i, j) (done ++ (a, b) :: ps)
                               <-> In (i, j) ((done ++ [(a, b)]) ++ ps)).
    { intros i j. rewrite <- app_assoc. reflexivity. }
    destruct (String.eqb_spec a b) as [->|Hab].
    + rewrite (bind_run (ret tt) _ w tt w eq_refl).
      destruct (IH (done ++ [(b, b)]) w WB SB Hd') as [w' [E [WB' [SB' [I1 I2]]]]].
      * intros i j Hi Hne. apply Hin; [|exact Hne].
        apply in_app_iff in Hi as [Hi|[[= <- <-]|[]]]; [exact Hi|contradiction].
      * intros i j Hn. apply Hout. intros [Hi Hne]. apply Hn.
        split; [apply in_app_iff; left; exact Hi|exact Hne].
      * exists w'. split; [exact E|]. split; [exact WB'|]. split; [exact SB'|].
        split.
        -- intros i j Hi. apply I1, Happ, Hi.
        -- intros i j Hn. apply I2. intros [Hi Hne]. apply Hn.
           split; [apply Happ, Hi|exact Hne].
    + destruct (Hd a b (or_introl eq_refl)) as [Da Db].
      destruct SB as [SV [SD SS]].
      assert (Da' : declared (self w) a) by (unfold declared; rewrite SV; exact Da).
      assert (Db' : declared (self w) b) by (unfold declared; rewrite SV; exact Db).
      destruct (candidate_pairs_exist w a b WB Da' Db') as [ci [old [Hci Hold]]].
      rewrite (bind_run _ _ w _ _
                 (add_constraint_one_way_run a b not_equal w ci old Hci Hold)).
      set (kept := List.filter _ old).
      set (w1 := with_constraint w a b ci kept).
      assert (WB1 : well_built w1).
      { pose proof (add_constraint_one_way_well_built a b not_equal w WB) as X.
        rewrite (add_constraint_one_way_run a b not_equal w ci old Hci Hold) in X.
        exact X. }
      assert (Hkept : forall x y, In (x, y) kept <-> In (x, y) old /\ x <> y).
      { intros x y. unfold kept. rewrite filter_In. simpl.
        rewrite not_equal_true. reflexivity. }
      destruct (IH (done ++ [(a, b)]) w1 WB1) as [w' [E [WB' [SB' [I1 I2]]]]].
      * repeat split; assumption.
      * exact Hd'.
      * intros i j Hi Hne. unfold differ_registered.
        unfold w1. rewrite constraint_of_with by exact Hci.
        destruct (String.eqb_spec i a) as [->|Hia]; simpl.
        -- destruct (String.eqb_spec j b) as [->|Hjb].
           ++ destruct (decide ((a, b) ∈ done)) as [Hdone|Hnd];
                rewrite list_elem_of_In in *.
              ** destruct (Hin a b Hdone Hab) as [old0 [kept0 [C0 [E0 H0]]]].
                 unfold candidate_pairs in Hold. rewrite E0 in Hold.
                 simpl in Hold. subst old.
                 exists old0, kept. split; [exact C0|]. split; [reflexivity|].
                 intros x y. rewrite Hkept, H0. tauto.
              ** exists old, kept. split; [|split; [reflexivity|exact Hkept]].
                 apply (candidate_pairs_same_base w0 w a b old);
                   [repeat split; assumption| |exact Hold].
                 apply Hout. tauto.
           ++ apply in_app_iff in Hi as [Hi|[[= Hb]|[]]]; [|congruence].
              apply Hin; assumption.
        -- apply in_app_iff in Hi as [Hi|[[= Ha _]|[]]]; [|congruence].
           apply Hin; assumption.
      * intros i j Hn. unfold w1. rewrite constraint_of_with by exact Hci.
        destruct (String.eqb_spec i a) as [->|Hia]; simpl.
        -- destruct (String.eqb_spec j b) as [->|Hjb].
           ++ exfalso. apply Hn. split; [|exact Hab].
              apply in_app_iff. right. left. reflexivity.
           ++ apply Hout. intros [Hi Hne]. apply Hn.
              split; [apply in_app_iff; left; exact Hi|exact Hne].
        -- apply Hout. intros [Hi Hne]. apply Hn.
           split; [apply in_app_iff; left; exact Hi|exact Hne].
      * exists w'. split; [exact E|]. split; [exact WB'|]. split; [exact SB'|].
        split.
        -- intros i j Hi. apply I1, Happ, Hi.
        -- intros i j Hn. apply I2. intros [Hi Hne]. apply Hn.
           split; [apply Happ, Hi|exact Hne].
Qed.

(** X13: on a graph under construction, [add_all_different_constraint] on
    declared variables does not raise. It leaves variables, domain
    templates and heap as they were; for every two different variables of
    the list it registers, in both directions, a [filter] object that
    yields the pairs of unequal values among those the ordered pair
    started from (what it already stored, or else the product of the two
    templates); and it leaves every other constraint untouched. *)
Theorem add_all_different_constraint_registers vars w :
  built w ->
  (forall v, In v vars -> declared (self w) v) ->
  exists w',
    add_all_different_constraint vars w = (Ok tt, w') /\
    same_base w w' /\
    (forall i j, In i vars -> In j vars -> i <> j ->
                 differ_registered w w' i j /\ differ_registered w w' j i) /\
    (forall i j, ~ (In i vars /\ In j vars /\ i <> j) ->
                 constraint_of (self w') i j = constraint_of (self w) i j).
Proof.
  intros B Hd. unfold add_all_different_constraint, get_all_possible_pairs.
  destruct (all_different_loop w (list_prod vars vars) [] w)
    as [w' [E [_ [SB [I1 I2]]]]].
  - apply built_well_built, B.
  - repeat split.
  - intros a b H. apply in_prod_iff in H as [Ha Hb]. auto.
  - intros i j [].
  - reflexivity.
  - exists w'. split; [exact E|]. split; [exact SB|]. split.
    + intros i j Hi Hj Hne.
      split; apply I1; simpl; try apply in_prod_iff; auto.
    + intros i j Hn. apply I2. simpl. intros [H Hne].
      apply in_prod_iff in H as [Hi Hj]. tauto.
Qed.

Lemma add_all_different_constraint_registers_witness :
  exists w',
    add_all_different_constraint ["A"; "B"]%string two_variables = (Ok tt, w') /\
    same_base two_variables w' /\
    (forall i j, In i ["A"; "B"]%string -> In j ["A"; "B"]%string -> i <> j ->
                 differ_registered two_variables w' i j /\
                 differ_registered two_variables w' j i) /\
    (forall i j, ~ (In i ["A"; "B"]%string /\ In j ["A"; "B"]%string /\ i <> j) ->
                 constraint_of (self w') i j
                 = constraint_of (self two_variables) i j).
Proof.
  apply add_all_different_constraint_registers.
  - unfold two_variables, build.
    change (built (snd (add_variable "B" [VStr "1"; VStr "2"]
                          (snd (add_variable "A" [VStr "1"; VStr "2"]
                                             world_init))))).
    apply built_add_variable, built_add_variable, built_init.
  - intros v [<-|[<-|[]]]; vm_compute; auto.
Defined.

(** ** Several all-different constraints in a row *)

Lemma bind_assoc {A B C} (m : M A) (k : A -> M B) (k' : B -> M C) w :
  bind (bind m k) k' w = bind m (fun x => bind (k x) k') w.
Proof. unfold bind. destruct (m w) as [[a|e] w1]; reflexivity. Qed.

Lemma for_each_app {A} (l1 l2 : list A) (body : A -> M unit) w :
  for_each (l1 ++ l2) body w
  = (exec for_each l1 body in for_each l2 body) w.
Proof.
  revert w. induction l1 as [|x l1 IH]; intros w; simpl; [reflexivity|].
  rewrite bind_assoc. apply bind_ext. intros [] w1 _. apply IH.
Qed.

Lemma for_each_map {A B} (f : A -> B) (l : list A) (body : B -> M unit) w :
  for_each (map f l) body w = for_each l (fun x => body (f x)) w.
Proof.
  revert w. induction l as [|x l IH]; intros w; simpl; [reflexivity|].
  apply bind_ext. intros [] w1 _. apply IH.
Qed.

Lemma mem_In i u : mem i u = true <-> In i u.
Proof.
  unfold mem. rewrite existsb_exists. split.
  - intros [x [Hx E]]. apply String.eqb_eq in E. congruence.
  - intros H. exists i. split; [exact H|apply String.eqb_refl].
Qed.

Lemma shares_cons u units i j :
  shares (u :: units) i j
  = (negb (String.eqb i j) && mem i u && mem j u) || shares units i j.
Proof.
  unfold shares. simpl. destruct (String.eqb i j); simpl; [reflexivity|].
  reflexivity.
Qed.

Lemma same_base_trans w1 w2 w3 :
  same_base w1 w2 -> same_base w2 w3 -> same_base w1 w3.
Proof. intros [A [B C]] [D [E F]]. repeat split; congruence. Qed.

Lemma differ_registered_then_differ w0 w1 w2 i j :
  differ_registered w0 w1 i j -> differ_registered w1 w2 i j ->
  differ_registered w0 w2 i j.
Proof.
  intros [old0 [kept1 [C0 [E1 H1]]]] [old1 [kept2 [C1 [E2 H2]]]].
  unfold candidate_pairs in C1. rewrite E1 in C1. simpl in C1. subst old1.
  exists old0, kept2. split; [exact C0|]. split; [exact E2|].
  intros x y. rewrite H2, H1. tauto.
Qed.

Lemma differ_registered_then_same w0 w1 w2 i j :
  differ_registered w0 w1 i j ->
  constraint_of (self w2) i j = constraint_of (self w1) i j ->
  differ_registered w0 w2 i j.
Proof.
  intros [old0 [kept1 [C0 [E1 H1]]]] E. exists old0, kept1.
  split; [exact C0|]. split; [congruence|exact H1].
Qed.

Lemma same_then_differ_registered w0 w1 w2 i j :
  same_base w0 w1 ->
  constraint_of (self w1) i j = constraint_of (self w0) i j ->
  differ_registered w1 w2 i j -> differ_registered w0 w2 i j.
Proof.
  intros SB E [old1 [kept2 [C1 [E2 H2]]]]. exists old1, kept2.
  split; [|auto]. eapply candidate_pairs_same_base; eauto.
Qed.

Lemma all_different_units units : forall w,
  well_built w ->
  (forall u v, In u units -> In v u -> declared (self w) v) ->
  exists w',
    for_each units add_all_different_constraint w = (Ok tt, w') /\
    well_built w' /\ same_base w w' /\
    (forall i j, shares units i j = true -> differ_registered w w' i j) /\
    (forall i j, shares units i j = false ->
                 constraint_of (self w') i j = constraint_of (self w) i j).
Proof.
  induction units as [|u units IH]; intros w WB Hd.
  - exists w. simpl. split; [reflexivity|]. split; [exact WB|].
    split; [repeat split|]. split; [|reflexivity].
    intros i j H. unfold shares in H. simpl in H.
    rewrite andb_false_r in H. discriminate.
  - destruct (all_different_loop w (list_prod u u) [] w WB)
      as [w1 [E1 [WB1 [SB1 [I1 I2]]]]].
    + repeat split.
    + intros a b H. apply in_prod_iff in H as [Ha Hb].
      split; eapply Hd; eauto; left; reflexivity.
    + intros i j [].
    + reflexivity.
    + destruct (IH w1 WB1) as [w' [E [WB' [SB' [J1 J2]]]]].
      * intros u0 v Hu Hv. unfold declared. destruct SB1 as [-> _].
        eapply Hd; eauto. right. exact Hu.
      * exists w'. split.
        { simpl. unfold add_all_different_constraint at 1.
          unfold get_all_possible_pairs.
          rewrite (bind_run _ _ w tt w1 E1). exact E. }
        split; [exact WB'|]. split; [eapply same_base_trans; eauto|].
        assert (Hu : forall i j,
                  negb (String.eqb i j) && mem i u && mem j u = true <->
                  In (i, j) ([] ++ list_prod u u) /\ i <> j).
        { intros i j. simpl. rewrite !andb_true_iff, negb_true_iff.
          rewrite in_prod_iff, !mem_In.
          destruct (String.eqb_spec i j); split; intros H;
            try tauto; try (destruct H as [[H _] _]; discriminate). }
        split; intros i j; rewrite shares_cons;
          destruct (negb (String.eqb i j) && mem i u && mem j u) eqn:Lu;
          destruct (shares units i j) eqn:Lr; simpl; try discriminate;
          intros _.
        -- apply Hu in Lu as [Li Ln].
           eapply differ_registered_then_differ; eauto.
        -- apply Hu in Lu as [Li Ln].
           eapply differ_registered_then_same; eauto.
        -- eapply same_then_differ_registered; eauto.
           apply I2. intros H. apply Hu in H. congruence.
        -- rewrite (J2 i j Lr). apply I2. intros H. apply Hu in H. congruence.
Qed.

(** ** [create_sudoku_csp] *)

Lemma add_cells_spec board : forall cells done w,
  well_built w -> unconstrained (self w) ->
  variables (self w) = map name_of done ->
  (forall rc, In rc done -> cell_declared board w rc) ->
  NoDup (map name_of (done ++ cells)) ->
  (forall rc, In rc cells -> board_cell board (fst rc) (snd rc) <> None) ->
  exists w',
    add_cells board cells w = (Ok Built, w') /\
    well_built w' /\ unconstrained (self w') /\
    variables (self w') = map name_of (done ++ cells) /\
    (forall rc, In rc (done ++ cells) -> cell_declared board w' rc).
Proof.
  induction cells as [|[row col] cells IH]; intros done w WB U V D N R.
  - exists w. rewrite app_nil_r. simpl. auto.
  - simpl. destruct (board_cell board row col) as [ch|] eqn:Ech.
    2:{ exfalso. apply (R (row, col)); [left; reflexivity|exact Ech]. }
    set (dom := if String.eqb ch "0" then digits else [VStr ch]).
    set (w1 := snd (add_variable (cell_name row col) dom w)).
    assert (E1 : add_variable (cell_name row col) dom w = (Ok tt, w1))
      by reflexivity.
    rewrite (bind_run _ _ w tt w1 E1).
    replace (done ++ (row, col) :: cells) with ((done ++ [(row, col)]) ++ cells)
      in * by (rewrite <- app_assoc; reflexivity).
    apply IH.
    + apply add_variable_well_built, WB.
    + intros i ci Hin. simpl in Hin.
      apply dict_set_In in Hin as [[= -> ->]|Hin]; [reflexivity|eauto].
    + simpl. rewrite V, map_app. reflexivity.
    + intros rc Hrc. apply in_app_iff in Hrc as [Hrc|[<-|[]]].
      * destruct (D rc Hrc) as [l [Hl Hc]]. exists l. simpl.
        rewrite dict_get_set.
        destruct (String.eqb_spec (name_of rc) (cell_name row col)) as [En|_].
        { exfalso. rewrite map_app, map_app in N.
          apply NoDup_app in N as [N _]. apply NoDup_app in N as [_ [N _]].
          apply (N (name_of rc)).
          - apply list_elem_of_In, in_map, Hrc.
          - rewrite En. apply list_elem_of_In. left. reflexivity. }
        split; [exact Hl|]. rewrite cell_app_l; [exact Hc|].
        destruct WB as [_ [_ T]]. destruct (T _ _ Hl) as [l' [[= <-] Hlt]].
        exact Hlt.
      * exists (length (store w)). simpl. rewrite dict_get_set.
        unfold name_of. simpl. rewrite String.eqb_refl.
        split; [reflexivity|]. rewrite cell_app_new.
        unfold cell_domain. rewrite Ech. reflexivity.
    + exact N.
    + intros rc Hrc. apply R. right. exact Hrc.
Qed.

Lemma add_cells_unreadable board : forall cells w,
  (exists rc, In rc cells /\ board_cell board (fst rc) (snd rc) = None) ->
  fst (add_cells board cells w) = Ok IndexError.
Proof.
  induction cells as [|[row col] cells IH]; intros w [rc [Hin Hrc]].
  - destruct Hin.
  - simpl. destruct (board_cell board row col) as [ch|] eqn:Ech;
      [|reflexivity].
    destruct Hin as [<-|Hin]; [simpl in Hrc; congruence|].
    unfold bind at 1.
    destruct (add_variable _ _ w) as [[[]|e] w1] eqn:E1.
    + apply IH. eauto.
    + discriminate E1.
Qed.

Lemma add_cells_unconstrained board : forall cells w,
  unconstrained (self w) ->
  unconstrained (self (snd (add_cells board cells w))).
Proof.
  induction cells as [|[row col] cells IH]; intros w U; simpl; [exact U|].
  destruct (board_cell board row col) as [ch|]; [|exact U].
  unfold bind at 1.
  destruct (add_variable _ _ w) as [[[]|e] w1] eqn:E1; [|discriminate E1].
  apply IH. injection E1 as <-. intros i ci Hin. simpl in Hin.
  apply dict_set_In in Hin as [[= -> ->]|Hin]; [reflexivity|eauto].
Qed.

Lemma all_cells_In r c : r < 9 -> c < 9 -> In (r, c) all_cells.
Proof.
  intros Hr Hc. apply in_prod_iff. split; apply in_seq; simpl; lia.
Qed.

Lemma all_cells_NoDup : NoDup (map name_of all_cells).
Proof.
  apply (bool_decide_unpack _). vm_compute. exact I.
Qed.

Lemma unconstrained_none c i j : unconstrained c -> constraint_of c i j = None.
Proof.
  intros U. unfold constraint_of.
  destruct (dict_get (constraints c) i) as [ci|] eqn:E; [|reflexivity].
  apply dict_get_In in E. rewrite (U _ _ E). reflexivity.
Qed.

Lemma sudoku_units_declared u v :
  In u sudoku_units -> In v u -> In v (map name_of all_cells).
Proof.
  assert (H : forallb (fun u => forallb (fun v => mem v (map name_of all_cells)) u)
                      sudoku_units = true) by (vm_compute; reflexivity).
  intros Hu Hv. rewrite forallb_forall in H. specialize (H u Hu).
  rewrite forallb_forall in H. apply mem_In, H, Hv.
Qed.

Lemma shares_peers p q :
  In p all_cells -> In q all_cells ->
  shares sudoku_units (name_of p) (name_of q) = peers p q.
Proof.
  assert (H : forallb (fun pq => Bool.eqb (shares sudoku_units (name_of (fst pq))
                                                   (name_of (snd pq)))
                                          (peers (fst pq) (snd pq)))
                      (list_prod all_cells all_cells) = true)
    by (vm_compute; reflexivity).
  intros Hp Hq. rewrite forallb_forall in H.
  apply Bool.eqb_prop. apply (H (p, q)). apply in_prod_iff. auto.
Qed.

Lemma readable_cells board rc :
  readable board = true -> In rc all_cells ->
  board_cell board (fst rc) (snd rc) <> None.
Proof.
  unfold readable. rewrite forallb_forall. intros H Hin.
  specialize (H rc Hin). destruct (board_cell board (fst rc) (snd rc));
    [discriminate|discriminate H].
Qed.

(** X14: for a board of nine lines with at least nine characters each,
    [create_sudoku_csp] does not raise; it declares the 81 cells in
    row-major order, a blank cell ('0') with the digits '1'..'9' and any
    other cell with its own character as its only value; two different
    cells in a common row, column or 3x3 box carry the list of the pairs of
    unequal values of their domains, any other two cells carry no
    constraint, and every constraint is a list. *)
Theorem create_sudoku_csp_builds (board : list string) :
  readable board = true ->
  exists w,
    create_sudoku_csp board world_init = (Ok Built, w) /\
    variables (self w) = map name_of all_cells /\
    listified (self w) = true /\
    (forall p, In p all_cells -> cell_declared board w p) /\
    (forall p q, In p all_cells -> In q all_cells ->
       if peers p q then
         exists kept,
           constraint_of (self w) (name_of p) (name_of q) = Some (PList kept) /\
           forall x y,
             In (x, y) kept <->
             In x (cell_domain board (fst p) (snd p)) /\
             In y (cell_domain board (fst q) (snd q)) /\ x <> y
       else constraint_of (self w) (name_of p) (name_of q) = None).
Proof.
  intros R.
  destruct (add_cells_spec board all_cells [] world_init)
    as [w1 [E1 [WB1 [U1 [V1 D1]]]]].
  - apply built_well_built, built_init.
  - intros i ci [].
  - reflexivity.
  - intros rc [].
  - apply all_cells_NoDup.
  - intros rc Hin. apply readable_cells; assumption.
  - simpl app in *.
    destruct (all_different_units sudoku_units w1 WB1)
      as [w2 [E2 [WB2 [SB2 [J1 J2]]]]].
    { intros u v Hu Hv. unfold declared. rewrite V1.
      eapply sudoku_units_declared; eauto. }
    unfold sudoku_units in E2.
    rewrite for_each_app in E2.
    apply bind_Ok_inv in E2 as [[] [wa [Ea E2]]].
    rewrite for_each_app in E2.
    apply bind_Ok_inv in E2 as [[] [wb [Eb Ec]]].
    rewrite for_each_map in Ea. rewrite for_each_map in Eb.
    rewrite for_each_map in Ec.
    exists (snd (listify_constraints w2)). split.
    { unfold create_sudoku_csp. fold all_cells.
      rewrite (bind_run _ _ world_init Built w1 E1).
      rewrite (bind_run _ _ w1 tt wa Ea).
      rewrite (bind_run _ _ wa tt wb Eb).
      rewrite (bind_run _ _ wb tt w2 Ec).
      reflexivity. }
    destruct SB2 as [SV [SD SS]].
    split; [simpl; rewrite SV; exact V1|].
    split; [apply listified_map|].
    assert (D2 : forall p, In p all_cells ->
                 cell_declared board (snd (listify_constraints w2)) p).
    { intros p Hp. destruct (D1 p Hp) as [l [Hl Hc]]. exists l. simpl.
      rewrite SD, SS. auto. }
    split; [exact D2|].
    intros p q Hp Hq. rewrite <- (shares_peers p q Hp Hq).
    rewrite listify_constraint_of.
    destruct (shares sudoku_units (name_of p) (name_of q)) eqn:Sh.
    + destruct (J1 _ _ Sh) as [old [kept [C [Ek Hk]]]].
      exists kept. rewrite Ek. split; [reflexivity|].
      unfold candidate_pairs in C.
      rewrite (unconstrained_none _ _ _ U1) in C.
      destruct C as [oi [oj [a [b [Gi [Gj [Ci [Cj ->]]]]]]]].
      destruct (D1 p Hp) as [lp [Glp Hcp]].
      destruct (D1 q Hq) as [lq [Glq Hcq]].
      rewrite Glp in Gi. injection Gi as <-.
      rewrite Glq in Gj. injection Gj as <-.
      simpl in Ci, Cj. injection Ci as <-. injection Cj as <-.
      intros x y. rewrite Hk. unfold get_all_possible_pairs.
      rewrite in_prod_iff, Hcp, Hcq. tauto.
    + rewrite (J2 _ _ Sh). rewrite (unconstrained_none _ _ _ U1). reflexivity.
Qed.

Lemma create_sudoku_csp_builds_witness :
  readable sample_board = true /\
  exists w,
    create_sudoku_csp sample_board world_init = (Ok Built, w) /\
    variables (self w) = map name_of all_cells /\
    listified (self w) = true /\
    (forall p, In p all_cells -> cell_declared sample_board w p) /\
    (forall p q, In p all_cells -> In q all_cells ->
       if peers p q then
         exists kept,
           constraint_of (self w) (name_of p) (name_of q) = Some (PList kept) /\
           forall x y,
             In (x, y) kept <->
             In x (cell_domain sample_board (fst p) (snd p)) /\
             In y (cell_domain sample_board (fst q) (snd q)) /\ x <> y
       else constraint_of (self w) (name_of p) (name_of q) = None).
Proof.
  split; [vm_compute; reflexivity|].
  apply (create_sudoku_csp_builds sample_board). vm_compute. reflexivity.
Defined.

(** X15: when the board has fewer than nine lines, or one of its first
    nine lines has fewer than nine characters, [create_sudoku_csp] stops
    with an IndexError at the first cell it cannot read, before any
    constraint is added. *)
Theorem create_sudoku_csp_short_board (board : list string) :
  readable board = false ->
  fst (create_sudoku_csp board world_init) = Ok IndexError /\
  unconstrained (self (snd (create_sudoku_csp board world_init))).
Proof.
  intros R. unfold readable in R.
  assert (Hx : exists rc, In rc all_cells /\
                          board_cell board (fst rc) (snd rc) = None).
  { apply Bool.not_true_iff_false in R.
    destruct (existsb (fun rc => match board_cell board (fst rc) (snd rc) with
                                 | Some _ => false | None => true end)
                      all_cells) eqn:Ex.
    - apply existsb_exists in Ex as [rc [Hin Hrc]]. exists rc.
      split; [exact Hin|].
      destruct (board_cell board (fst rc) (snd rc)); [discriminate|reflexivity].
    - exfalso. apply R. apply forallb_forall. intros rc Hin.
      destruct (board_cell board (fst rc) (snd rc)) eqn:Eb; [reflexivity|].
      assert (Ht : existsb (fun rc => match board_cell board (fst rc) (snd rc) with
                                      | Some _ => false | None => true end)
                           all_cells = true).
      { apply existsb_exists. exists rc. rewrite Eb. auto. }
      congruence. }
  pose proof (add_cells_unreadable board all_cells world_init Hx) as E.
  pose proof (add_cells_unconstrained board all_cells world_init) as U.
  destruct (add_cells board all_cells world_init) as [r w1] eqn:Eq.
  cbn [fst snd] in E, U. subst r.
  unfold create_sudoku_csp. fold all_cells.
  rewrite (bind_run _ _ world_init IndexError w1 Eq).
  split; [reflexivity|]. apply U. intros i ci [].
Qed.

Lemma create_sudoku_csp_short_board_witness :
  readable ["123456789"; "12345678"]%string = false /\
  fst (create_sudoku_csp ["123456789"; "12345678"]%string world_init)
  = Ok IndexError /\
  unconstrained
    (self (snd (create_sudoku_csp ["123456789"; "12345678"]%string world_init))).
Proof.
  split; [reflexivity|].
  apply (create_sudoku_csp_short_board ["123456789"; "12345678"]%string).
  reflexivity.
Defined.
